(** * Neuro-Spin: the statistics aggregator of [App.tsx]

    A shallow embedding of [processSimulations] (App.tsx, lines 31-73): the
    per-tick fold of a batch of simulated spins into the running statistics
    record of every tracked slot; with it, [toggleSlotTracking] (lines
    22-29), which edits the active set the tick iterates over, and the
    "Total Network Wagered" sum of the header (line 116).

    Numbers.  The amounts of the program (stakes, wins, multipliers, RTP
    percentages) are finite numbers, modelled as exact rationals [Q]: the
    rounding of the JavaScript doubles is abstracted away, and [NaN] and the
    infinities are not inputs.  The one non-finite value the code itself
    produces from finite inputs, [Math.max()] of an empty spread, is kept
    ([NegInfinity]); the only division is guarded by [> 0].  The spin
    counter is a [Z].  Module [Double] repeats the additions of the
    accumulators on binary64 numbers, for the statements that rounding
    decides.

    Effects.  [runBatchSimulation] draws random numbers: the generator state
    is threaded explicitly.  Reading a property of [undefined] throws a
    [TypeError]: a tick is a computation in a small state-and-exception
    monad. *)

From Stdlib Require Import QArith ZArith List Lia Lqa.
From Stdlib Require SpecFloat.
From stdpp Require Import base strings gmap.
Import ListNotations.

Local Open Scope Q_scope.

(** ** JavaScript primitives used by the aggregator *)

Module JS.

(** [x > y] on numbers. *)
Definition gt (x y : Q) : bool :=
  match x ?= y with
  | Gt => true
  | _ => false
  end.

(** The result of [Math.max(...xs)]: [-Infinity] when [xs] is empty. *)
Inductive maxval : Type :=
| NegInfinity
| Finite (q : Q).

(** One step of the loop of [Math.max]: the running [highest] is replaced
    by [x] when [x > highest]. *)
Definition max_step (highest : maxval) (x : Q) : maxval :=
  match highest with
  | NegInfinity => Finite x
  | Finite h => if gt x h then Finite x else Finite h
  end.

(** [Math.max(...xs)]. *)
Definition Math_max_spread (xs : list Q) : maxval :=
  fold_left max_step xs NegInfinity.

(** [Math.max(a, b)] where [a] is a finite number and [b] the result of a
    spread maximum. *)
Definition Math_max (a : Q) (b : maxval) : Q :=
  match b with
  | NegInfinity => a
  | Finite q => if gt q a then q else a
  end.

(** [xs.reduce((sum, r) => sum + f(r), 0)]. *)
Definition reduce_sum {A : Type} (f : A -> Q) (xs : list A) : Q :=
  fold_left (fun sum r => sum + f r) xs 0.

(** [xs.slice(-n)]: the start index is [max(xs.length - n, 0)]. *)
Definition slice_last {A : Type} (n : nat) (xs : list A) : list A :=
  skipn (length xs - n) xs.

(** What a call can complete with. *)
Inductive exn : Type :=
| TypeError.

Inductive completion (A : Type) : Type :=
| Normal (a : A)
| Throw (e : exn).
Arguments Normal {A} a.
Arguments Throw {A} e.

End JS.

Import JS.

(** ** Data model (types.ts, as used by App.tsx) *)

Record SpinResult : Type := mkSpinResult {
  stake : Q;
  win : Q;
  multiplier : Q
}.

Record SlotConfig : Type := mkSlotConfig {
  id : string;
  name : string;
  rtp : Q;
  hitFreq : Q
}.

Inductive Trend : Type :=
| up
| down.

Record SlotStats : Type := mkSlotStats {
  liveRtp : Q;
  totalSpins : Z;
  totalStakes : Q;
  totalWins : Q;
  maxMultiplier : Q;
  history : list SpinResult;
  recentRtpHistory : list Q;
  trend : Trend
}.

(** ** The aggregation step (App.tsx, lines 43-68) *)

Definition batchStakes (batchResults : list SpinResult) : Q :=
  reduce_sum stake batchResults.

Definition batchWins (batchResults : list SpinResult) : Q :=
  reduce_sum win batchResults.

Definition batchMaxMulti (batchResults : list SpinResult) : maxval :=
  Math_max_spread (map multiplier batchResults).

Definition newLiveRtp (updatedTotalStakes updatedTotalWins : Q)
    (config : SlotConfig) : Q :=
  if gt updatedTotalStakes 0
  then (updatedTotalWins / updatedTotalStakes) * 100
  else rtp config.

Definition applyBatch (currentStats : SlotStats) (config : SlotConfig)
    (batchResults : list SpinResult) : SlotStats :=
  let updatedTotalStakes := totalStakes currentStats + batchStakes batchResults in
  let updatedTotalWins := totalWins currentStats + batchWins batchResults in
  let newRtp := newLiveRtp updatedTotalStakes updatedTotalWins config in
  let newHistory := slice_last 100 (history currentStats ++ batchResults) in
  let newRtpHistory := slice_last 30 (recentRtpHistory currentStats ++ [newRtp]) in
  {| liveRtp := newRtp;
     totalSpins := (totalSpins currentStats + Z.of_nat (length batchResults))%Z;
     totalStakes := updatedTotalStakes;
     totalWins := updatedTotalWins;
     maxMultiplier := Math_max (maxMultiplier currentStats) (batchMaxMulti batchResults);
     history := newHistory;
     recentRtpHistory := newRtpHistory;
     trend := if gt newRtp (liveRtp currentStats) then up else down |}.

(** The same step with [currentStats = nextMap[slotId]] as the code reads it:
    the first property access on [undefined] throws. *)
Definition aggregate (currentStats : option SlotStats) (config : SlotConfig)
    (batchResults : list SpinResult) : completion SlotStats :=
  match currentStats with
  | None => Throw TypeError
  | Some cs => Normal (applyBatch cs config batchResults)
  end.

(** A record folded over successive batches, oldest batch first. *)
Definition applyBatches (s : SlotStats) (config : SlotConfig)
    (batches : list (list SpinResult)) : SlotStats :=
  fold_left (fun acc b => applyBatch acc config b) batches s.

(** The [liveRtp] written by each of the successive calls, in call order. *)
Fixpoint rtpSnapshots (s : SlotStats) (config : SlotConfig)
    (batches : list (list SpinResult)) : list Q :=
  match batches with
  | [] => []
  | b :: rest =>
      let s' := applyBatch s config b in
      liveRtp s' :: rtpSnapshots s' config rest
  end.

(** ** One tick over the statistics map (App.tsx, lines 31-73) *)

Section Tick.

(** The state of the random source behind [Math.random]. *)
Variable Rng : Type.

(** [runBatchSimulation] of services/simulationEngine (not part of this
    file): it consumes randomness and returns the spins of one batch. *)
Variable runBatchSimulation :
  SlotConfig -> nat -> Q -> Rng -> list SpinResult * Rng.

(** The asset catalog [SLOTS] of constants.ts. *)
Variable SLOTS : list SlotConfig.

Definition M (A : Type) : Type := Rng -> completion A * Rng.

Definition ret {A : Type} (a : A) : M A := fun r => (Normal a, r).

Definition bind {A B : Type} (m : M A) (k : A -> M B) : M B :=
  fun r =>
    match m r with
    | (Normal a, r') => k a r'
    | (Throw e, r') => (Throw e, r')
    end.

Definition lift {A : Type} (c : completion A) : M A := fun r => (c, r).

Definition draw {A : Type} (f : Rng -> A * Rng) : M A :=
  fun r => let (a, r') := f r in (Normal a, r').

Notation "'let!' x ':=' m 'in' k" := (bind m (fun x => k))
  (at level 10, x name, m at level 100, k at level 200).

(** [SLOTS.find(s => s.id === slotId)]. *)
Definition findConfig (slotId : string) : option SlotConfig :=
  List.find (fun s => String.eqb (id s) slotId) SLOTS.

(** The callback of [activeSlots.forEach]. *)
Definition tickSlot (globalStake : Q) (nextMap : gmap string SlotStats)
    (slotId : string) : M (gmap string SlotStats) :=
  match findConfig slotId with
  | None => ret nextMap
  | Some config =>
      let currentStats := nextMap !! slotId in
      let! batchResults := draw (runBatchSimulation config 100%nat globalStake) in
      let! updated := lift (aggregate currentStats config batchResults) in
      ret (<[slotId := updated]> nextMap)
  end.

Fixpoint forEach (globalStake : Q) (slots : list string)
    (nextMap : gmap string SlotStats) : M (gmap string SlotStats) :=
  match slots with
  | [] => ret nextMap
  | slotId :: rest =>
      let! m := tickSlot globalStake nextMap slotId in
      forEach globalStake rest m
  end.

(** The updater passed to [setStatsMap]; [activeSlots] lists the elements
    of the set in insertion order, the order [forEach] visits them. *)
Definition processSimulations (activeSlots : list string) (globalStake : Q)
    (prev : gmap string SlotStats) : M (gmap string SlotStats) :=
  forEach globalStake activeSlots prev.

End Tick.

(** ** Sample data: a catalog entry, records and spins *)

Module Sample.

Definition bookOfDead : SlotConfig :=
  {| id := "book-of-dead"; name := "Book of Dead"; rtp := 96; hitFreq := 1 # 4 |}.

Definition razorShark : SlotConfig :=
  {| id := "razor-shark"; name := "Razor Shark"; rtp := 9631 # 100; hitFreq := 1 # 5 |}.

Definition catalog : list SlotConfig := [bookOfDead; razorShark].

(** A record on which nothing has been folded yet. *)
Definition fresh (config : SlotConfig) : SlotStats :=
  {| liveRtp := rtp config; totalSpins := 0; totalStakes := 0; totalWins := 0;
     maxMultiplier := 0; history := []; recentRtpHistory := []; trend := up |}.

Definition hit : SpinResult := {| stake := 1; win := 3; multiplier := 3 |}.
Definition miss : SpinResult := {| stake := 1; win := 0; multiplier := 0 |}.
Definition idle : SpinResult := {| stake := 0; win := 0; multiplier := 0 |}.

(** A deterministic stand-in for the simulation engine: [count] losing
    spins at the given stake; the generator state counts the calls. *)
Definition losingEngine (config : SlotConfig) (count : nat) (stk : Q)
    (calls : nat) : list SpinResult * nat :=
  (repeat {| stake := stk; win := 0; multiplier := 0 |} count, S calls).

Definition statsMap : gmap string SlotStats :=
  <["book-of-dead" := fresh bookOfDead]> (<["razor-shark" := fresh razorShark]> ∅).

(** The map one tick of [losingEngine] at stake 1 makes of [statsMap] when
    only "book-of-dead" is both active and in the catalog. *)
Definition tickedMap : gmap string SlotStats :=
  <["book-of-dead" :=
      applyBatch (fresh bookOfDead) bookOfDead
        (repeat {| stake := 1; win := 0; multiplier := 0 |} 100)]> statsMap.

End Sample.

(** ** The active set (App.tsx, lines 14 and 22-29) *)

(** A [Set<string>]: its elements in insertion order, without duplicates. *)
Module ActiveSet.

(** [s.has(id)]. *)
Definition has (s : list string) (id : string) : bool :=
  existsb (String.eqb id) s.

(** [s.delete(id)]. *)
Definition delete (s : list string) (id : string) : list string :=
  List.filter (fun other => negb (String.eqb other id)) s.

(** [s.add(id)]: a new element goes last, a present one stays in place. *)
Definition add (s : list string) (id : string) : list string :=
  if has s id then s else s ++ [id].

End ActiveSet.

(** [new Set(['book-of-dead', 'razor-shark'])], the initial active set. *)
Definition initialActiveSlots : list string :=
  ["book-of-dead"; "razor-shark"].

(** The updater of [toggleSlotTracking]: it works on a copy of [prev]. *)
Definition toggleSlotTracking (id : string) (prev : list string) : list string :=
  let next := prev in
  if ActiveSet.has next id
  then ActiveSet.delete next id
  else ActiveSet.add next id.

(** ** The header total (App.tsx, line 116) *)

(** [Object.values(statsMap).reduce((s, stats) => s + stats.totalStakes, 0)].
    The values are taken in the enumeration order of the map; the sum of
    exact numbers does not depend on that order ([Qsum_Permutation]). *)
Definition totalNetworkWagered (statsMap : gmap string SlotStats) : Q :=
  reduce_sum totalStakes (map snd (map_to_list statsMap)).

(** ** The accumulators in binary64 (App.tsx, lines 43-44, 47-48, 61-63) *)

(** The same additions on IEEE 754 doubles, the numbers the program runs
    on, with the arithmetic of the standard library's [SpecFloat] at
    precision 53 and maximal exponent 1024 (rounding to nearest, ties to
    even): where a statement depends on rounding, it is evaluated here. *)
Module Double.

Import SpecFloat.

Definition prec : Z := 53.
Definition emax : Z := 1024.

(** [x + y] on doubles. *)
Definition add (x y : spec_float) : spec_float := SFadd prec emax x y.

(** The double of a natural number, as [batchResults.length] is one. *)
Definition of_nat (n : nat) : spec_float :=
  binary_normalize prec emax (Z.of_nat n) 0 false.

(** The number [0]. *)
Definition zero : spec_float := S754_zero false.

Record SpinResult : Type := mkSpinResult {
  stake : spec_float;
  win : spec_float;
  multiplier : spec_float
}.

(** The three accumulators of a [SlotStats]. *)
Record Totals : Type := mkTotals {
  totalSpins : spec_float;
  totalStakes : spec_float;
  totalWins : spec_float
}.

(** [batchResults.reduce((sum, r) => sum + r.stake, 0)]. *)
Definition batchStakes (batchResults : list SpinResult) : spec_float :=
  fold_left (fun sum r => add sum (stake r)) batchResults zero.

(** [batchResults.reduce((sum, r) => sum + r.win, 0)]. *)
Definition batchWins (batchResults : list SpinResult) : spec_float :=
  fold_left (fun sum r => add sum (win r)) batchResults zero.

(** Lines 47-48 and 61-63. *)
Definition accumulate (currentStats : Totals)
    (batchResults : list SpinResult) : Totals :=
  let updatedTotalStakes :=
    add (totalStakes currentStats) (batchStakes batchResults) in
  let updatedTotalWins :=
    add (totalWins currentStats) (batchWins batchResults) in
  {| totalSpins := add (totalSpins currentStats)
                       (of_nat (length batchResults));
     totalStakes := updatedTotalStakes;
     totalWins := updatedTotalWins |}.

(** Numbers added one by one, left to right, starting from 0. *)
Definition left_sum (xs : list spec_float) : spec_float :=
  fold_left add xs zero.

(** The rational a finite double stands for (0 for NaN and infinities). *)
Definition exact (x : spec_float) : Q :=
  match x with
  | S754_finite sign m e =>
      inject_Z (if sign then Z.neg m else Z.pos m) * Qpower 2 e
  | _ => 0
  end.

(** The double nearest to 0.1, the smallest entry of [STAKE_OPTIONS]:
    0x1.999999999999ap-4. *)
Definition tenth : spec_float := S754_finite false 7205759403792794 (-56).

(** 9.99999999999998, that is 0x1.3fffffffffff5p+3. *)
Definition just_under_ten : spec_float :=
  S754_finite false 5629499534213109 (-49).

(** 9007199254740992 = 2^53, from where on the doubles skip the odd
    integers. *)
Definition two_to_53 : spec_float := S754_finite false 4503599627370496 1.

Definition zeroTotals : Totals :=
  {| totalSpins := zero; totalStakes := zero; totalWins := zero |}.

(** A losing spin at stake 0.1. *)
Definition tenthSpin : SpinResult :=
  {| stake := tenth; win := zero; multiplier := zero |}.

End Double.

(** ** Specification-side notions the theorems are stated with *)

(** The sum of a list of amounts. *)
Definition Qsum (xs : list Q) : Q := fold_right Qplus 0 xs.

(** Amounts added one by one, left to right, starting from 0. *)
Definition left_sum (xs : list Q) : Q := fold_left Qplus xs 0.

(** All three numeric fields of a spin are non-negative. *)
Definition nonneg_spin (r : SpinResult) : Prop :=
  0 <= stake r /\ 0 <= win r /\ 0 <= multiplier r.

(** The four accumulators of [s1] are at most those of [s2]. *)
Definition accumulators_le (s1 s2 : SlotStats) : Prop :=
  (totalSpins s1 <= totalSpins s2)%Z /\
  totalStakes s1 <= totalStakes s2 /\
  totalWins s1 <= totalWins s2 /\
  maxMultiplier s1 <= maxMultiplier s2.

(** [w] holds the last [min cap (length all)] elements of [all], in the
    order of [all]: what comes before them has been evicted. *)
Definition window_of {A : Type} (cap : nat) (all w : list A) : Prop :=
  length w = Nat.min cap (length all) /\
  exists evicted, all = evicted ++ w.

(** ** Facts about the JavaScript primitives *)

Lemma gt_spec (x y : Q) : gt x y = true <-> y < x.
Proof.
  unfold gt. rewrite Qgt_alt. destruct (x ?= y); split; congruence.
Qed.

Lemma gt_false (x y : Q) : gt x y = false <-> x <= y.
Proof.
  unfold gt. rewrite Qle_alt. destruct (x ?= y); split; congruence.
Qed.

Lemma gt_zero_of_eq (x : Q) : x == 0 -> gt x 0 = false.
Proof.
  intros H. apply gt_false. rewrite H. apply Qle_refl.
Qed.

Lemma length_slice_last {A : Type} (n : nat) (xs : list A) :
  length (slice_last n xs) = Nat.min n (length xs).
Proof.
  unfold slice_last. rewrite length_skipn. lia.
Qed.

Lemma slice_last_short {A : Type} (n : nat) (xs : list A) :
  (length xs <= n)%nat -> slice_last n xs = xs.
Proof.
  intros H. unfold slice_last.
  replace (length xs - n)%nat with 0%nat by lia. reflexivity.
Qed.

Lemma slice_last_suffix {A : Type} (n : nat) (xs : list A) :
  exists evicted, xs = evicted ++ slice_last n xs.
Proof.
  exists (firstn (length xs - n) xs). unfold slice_last.
  symmetry. apply firstn_skipn.
Qed.

Lemma slice_last_window {A : Type} (n : nat) (xs : list A) :
  window_of n xs (slice_last n xs).
Proof.
  split; [apply length_slice_last | apply slice_last_suffix].
Qed.

(** Slicing, appending and slicing again keeps what one slice of the whole
    keeps. *)
Lemma slice_last_app_slice {A : Type} (n : nat) (xs ys : list A) :
  slice_last n (slice_last n xs ++ ys) = slice_last n (xs ++ ys).
Proof.
  unfold slice_last.
  rewrite !length_app, length_skipn.
  set (k := (length xs - n)%nat).
  set (j := (length xs - k + length ys - n)%nat).
  replace (length xs + length ys - n)%nat with (k + j)%nat
    by (unfold j, k; lia).
  rewrite <- drop_drop. f_equal.
  rewrite skipn_app.
  replace (k - length xs)%nat with 0%nat by (unfold k; lia).
  reflexivity.
Qed.

Lemma last_slice_last_snoc {A : Type} (n : nat) (xs : list A) (x : A) :
  (0 < n)%nat -> last (slice_last n (xs ++ [x])) = Some x.
Proof.
  intros Hn. unfold slice_last. rewrite length_app. simpl.
  rewrite skipn_app.
  replace (length xs + 1 - n - length xs)%nat with 0%nat by lia.
  simpl. apply last_snoc.
Qed.

(** ** Sums and maxima of a batch *)

Lemma fold_sum_shift {A : Type} (f : A -> Q) (xs : list A) (acc : Q) :
  fold_left (fun sum r => sum + f r) xs acc == acc + Qsum (map f xs).
Proof.
  revert acc. induction xs as [|x xs IH]; intros acc; simpl.
  - ring.
  - rewrite IH. ring.
Qed.

Lemma reduce_sum_Qsum {A : Type} (f : A -> Q) (xs : list A) :
  reduce_sum f xs == Qsum (map f xs).
Proof.
  unfold reduce_sum. rewrite fold_sum_shift. ring.
Qed.

Lemma Qsum_nonneg (xs : list Q) :
  Forall (fun x => 0 <= x) xs -> 0 <= Qsum xs.
Proof.
  induction 1 as [|x xs Hx _ IH]; simpl.
  - apply Qle_refl.
  - replace 0 with (0 + 0) by reflexivity. now apply Qplus_le_compat.
Qed.

Lemma reduce_sum_nonneg {A : Type} (f : A -> Q) (xs : list A) :
  Forall (fun r => 0 <= f r) xs -> 0 <= reduce_sum f xs.
Proof.
  intros H. rewrite reduce_sum_Qsum. apply Qsum_nonneg.
  induction H; simpl; constructor; auto.
Qed.

(** The loop of [Math.max] started at a finite [h] ends at a finite value
    that bounds [h] and every element and is one of them. *)
Lemma fold_max_step_finite (xs : list Q) (h : Q) :
  exists m, fold_left max_step xs (Finite h) = Finite m /\
            h <= m /\
            Forall (fun x => x <= m) xs /\
            (m = h \/ In m xs).
Proof.
  revert h. induction xs as [|x xs IH]; intros h; simpl.
  - exists h. repeat split; auto using Qle_refl.
  - destruct (gt x h) eqn:E.
    + destruct (IH x) as (m & Hm & Hle & Hall & Hin).
      apply gt_spec in E.
      exists m. repeat split; auto.
      * apply Qle_trans with x; auto using Qlt_le_weak.
      * destruct Hin as [->|Hin]; auto.
    + destruct (IH h) as (m & Hm & Hle & Hall & Hin).
      apply gt_false in E.
      exists m. repeat split; auto.
      * constructor; auto. now apply Qle_trans with h.
      * destruct Hin as [->|Hin]; auto.
Qed.

Lemma Math_max_spread_nonempty (x : Q) (xs : list Q) :
  exists m, Math_max_spread (x :: xs) = Finite m /\
            Forall (fun y => y <= m) (x :: xs) /\
            In m (x :: xs).
Proof.
  unfold Math_max_spread. simpl.
  destruct (fold_max_step_finite xs x) as (m & Hm & Hle & Hall & Hin).
  exists m. repeat split; auto.
  destruct Hin as [->|Hin]; [now left | now right].
Qed.

Lemma Math_max_ge_left (a : Q) (b : maxval) : a <= Math_max a b.
Proof.
  destruct b as [|q]; simpl.
  - apply Qle_refl.
  - destruct (gt q a) eqn:E.
    + apply gt_spec in E. now apply Qlt_le_weak.
    + apply Qle_refl.
Qed.

Lemma Math_max_ge_right (a q : Q) : q <= Math_max a (Finite q).
Proof.
  simpl. destruct (gt q a) eqn:E.
  - apply Qle_refl.
  - now apply gt_false in E.
Qed.

Lemma Math_max_attained (a q : Q) :
  Math_max a (Finite q) = a \/ Math_max a (Finite q) = q.
Proof.
  simpl. destruct (gt q a); auto.
Qed.

(** ** The aggregation step, field by field *)

Lemma applyBatches_cons (s : SlotStats) (config : SlotConfig)
    (b : list SpinResult) (batches : list (list SpinResult)) :
  applyBatches s config (b :: batches)
  = applyBatches (applyBatch s config b) config batches.
Proof. reflexivity. Qed.

Lemma applyBatches_app (s : SlotStats) (config : SlotConfig)
    (xs ys : list (list SpinResult)) :
  applyBatches s config (xs ++ ys)
  = applyBatches (applyBatches s config xs) config ys.
Proof. unfold applyBatches. apply fold_left_app. Qed.

Lemma rtpSnapshots_app (s : SlotStats) (config : SlotConfig)
    (xs ys : list (list SpinResult)) :
  rtpSnapshots s config (xs ++ ys)
  = rtpSnapshots s config xs
    ++ rtpSnapshots (applyBatches s config xs) config ys.
Proof.
  revert s. induction xs as [|b xs IH]; intros s; simpl.
  - reflexivity.
  - rewrite IH. reflexivity.
Qed.

Lemma length_rtpSnapshots (s : SlotStats) (config : SlotConfig)
    (batches : list (list SpinResult)) :
  length (rtpSnapshots s config batches) = length batches.
Proof.
  revert s. induction batches as [|b bs IH]; intros s; simpl; auto.
Qed.

Lemma liveRtp_applyBatch (s : SlotStats) (config : SlotConfig)
    (b : list SpinResult) :
  liveRtp (applyBatch s config b)
  = newLiveRtp (totalStakes (applyBatch s config b))
               (totalWins (applyBatch s config b)) config.
Proof. reflexivity. Qed.

Lemma totalStakes_applyBatch (s : SlotStats) (config : SlotConfig)
    (b : list SpinResult) :
  totalStakes (applyBatch s config b)
  == totalStakes s + Qsum (map stake b).
Proof.
  simpl. unfold batchStakes. now rewrite reduce_sum_Qsum.
Qed.

Lemma totalWins_applyBatch (s : SlotStats) (config : SlotConfig)
    (b : list SpinResult) :
  totalWins (applyBatch s config b)
  == totalWins s + Qsum (map win b).
Proof.
  simpl. unfold batchWins. now rewrite reduce_sum_Qsum.
Qed.

(** While nothing has been staked, every call writes the configured RTP. *)
Lemma rtpSnapshots_zero_stake (s : SlotStats) (config : SlotConfig)
    (zeros : list (list SpinResult)) :
  totalStakes s == 0 ->
  Forall (fun b => Qsum (map stake b) == 0) zeros ->
  Forall (fun x => x = rtp config) (rtpSnapshots s config zeros)
  /\ totalStakes (applyBatches s config zeros) == 0.
Proof.
  intros Hs Hz. revert s Hs.
  induction Hz as [|b zeros Hb _ IH]; intros s Hs.
  - split; [constructor | exact Hs].
  - assert (H0 : totalStakes (applyBatch s config b) == 0).
    { rewrite totalStakes_applyBatch, Hs, Hb. reflexivity. }
    destruct (IH _ H0) as [IH1 IH2].
    split; [|exact IH2].
    cbn [rtpSnapshots]. constructor; [|exact IH1].
    rewrite liveRtp_applyBatch. unfold newLiveRtp.
    now rewrite (gt_zero_of_eq _ H0).
Qed.

(** C2.  After an [applyBatch] call the stored [liveRtp] is
    [(totalWins / totalStakes) * 100] of the stored totals when the stored
    [totalStakes] is positive, and the configuration's [rtp] when it is
    zero.  In a run of calls that starts with nothing staked, each call that
    comes before the first batch of non-zero total stake writes [rtp]. *)
Theorem liveRtp_derived_or_fallback (s : SlotStats) (config : SlotConfig)
    (b : list SpinResult) (zeros rest : list (list SpinResult)) :
  (0 < totalStakes (applyBatch s config b) ->
   liveRtp (applyBatch s config b)
   = (totalWins (applyBatch s config b) / totalStakes (applyBatch s config b))
     * 100)
  /\ (totalStakes (applyBatch s config b) == 0 ->
      liveRtp (applyBatch s config b) = rtp config)
  /\ (totalStakes s == 0 ->
      Forall (fun z => Qsum (map stake z) == 0) zeros ->
      Forall (fun x => x = rtp config)
             (firstn (length zeros) (rtpSnapshots s config (zeros ++ rest)))).
Proof.
  split; [|split].
  - intros H. rewrite liveRtp_applyBatch. unfold newLiveRtp.
    apply gt_spec in H. now rewrite H.
  - intros H. rewrite liveRtp_applyBatch. unfold newLiveRtp.
    now rewrite (gt_zero_of_eq _ H).
  - intros Hs Hz.
    rewrite rtpSnapshots_app.
    rewrite firstn_app, length_rtpSnapshots, Nat.sub_diag. simpl.
    rewrite app_nil_r, firstn_all2 by (rewrite length_rtpSnapshots; lia).
    now apply rtpSnapshots_zero_stake.
Qed.

Lemma liveRtp_derived_or_fallback_witness :
  liveRtp (applyBatch (Sample.fresh Sample.bookOfDead) Sample.bookOfDead
             [Sample.hit; Sample.miss])
  = (3 / 2) * 100
  /\ liveRtp (applyBatch (Sample.fresh Sample.bookOfDead) Sample.bookOfDead
                [Sample.idle])
     = 96
  /\ Forall (fun x => x = 96)
        (firstn 2 (rtpSnapshots (Sample.fresh Sample.bookOfDead) Sample.bookOfDead
                     ([[Sample.idle]; []] ++ [[Sample.hit]]))).
Proof.
  split; [|split].
  - apply (liveRtp_derived_or_fallback (Sample.fresh Sample.bookOfDead)
             Sample.bookOfDead [Sample.hit; Sample.miss] [] []).
    reflexivity.
  - apply (liveRtp_derived_or_fallback (Sample.fresh Sample.bookOfDead)
             Sample.bookOfDead [Sample.idle] [] []).
    reflexivity.
  - apply (liveRtp_derived_or_fallback (Sample.fresh Sample.bookOfDead)
             Sample.bookOfDead [] [[Sample.idle]; []] [[Sample.hit]]).
    + reflexivity.
    + repeat constructor.
Defined.

(** ** The bounded windows *)

Lemma history_applyBatch (s : SlotStats) (config : SlotConfig)
    (b : list SpinResult) :
  history (applyBatch s config b) = slice_last 100 (history s ++ b).
Proof. reflexivity. Qed.

Lemma recentRtpHistory_applyBatch (s : SlotStats) (config : SlotConfig)
    (b : list SpinResult) :
  recentRtpHistory (applyBatch s config b)
  = slice_last 30 (recentRtpHistory s ++ [liveRtp (applyBatch s config b)]).
Proof. reflexivity. Qed.

(** Up to one more slice, the window after a run of calls is the slice of
    everything appended. *)
Lemma history_applyBatches (s : SlotStats) (config : SlotConfig)
    (batches : list (list SpinResult)) :
  slice_last 100 (history (applyBatches s config batches))
  = slice_last 100 (history s ++ concat batches).
Proof.
  revert s. induction batches as [|b bs IH]; intros s.
  - simpl. now rewrite app_nil_r.
  - rewrite applyBatches_cons, IH, history_applyBatch.
    rewrite slice_last_app_slice. simpl. now rewrite app_assoc.
Qed.

Lemma recentRtpHistory_applyBatches (s : SlotStats) (config : SlotConfig)
    (batches : list (list SpinResult)) :
  slice_last 30 (recentRtpHistory (applyBatches s config batches))
  = slice_last 30 (recentRtpHistory s ++ rtpSnapshots s config batches).
Proof.
  revert s. induction batches as [|b bs IH]; intros s.
  - simpl. now rewrite app_nil_r.
  - rewrite applyBatches_cons, IH, recentRtpHistory_applyBatch.
    rewrite slice_last_app_slice. cbn [rtpSnapshots].
    now rewrite <- app_assoc.
Qed.

Lemma windows_bounded (s : SlotStats) (config : SlotConfig)
    (batches : list (list SpinResult)) :
  (length (history s) <= 100)%nat ->
  (length (recentRtpHistory s) <= 30)%nat ->
  (length (history (applyBatches s config batches)) <= 100)%nat
  /\ (length (recentRtpHistory (applyBatches s config batches)) <= 30)%nat.
Proof.
  revert s. induction batches as [|b bs IH]; intros s Hh Hr.
  - now split.
  - rewrite applyBatches_cons. apply IH.
    + rewrite history_applyBatch, length_slice_last. lia.
    + rewrite recentRtpHistory_applyBatch, length_slice_last. lia.
Qed.

(** C3.  After any run of [applyBatch] calls that starts from a record with
    empty windows, [history] has at most 100 entries and [recentRtpHistory]
    at most 30, and each is the window of the most recently appended
    elements, in append order: [history] over all the spins appended,
    [recentRtpHistory] over all the [liveRtp] snapshots; what is missing is
    a prefix, the oldest elements. *)
Theorem bounded_windows (s : SlotStats) (config : SlotConfig)
    (batches : list (list SpinResult)) :
  history s = [] ->
  recentRtpHistory s = [] ->
  (length (history (applyBatches s config batches)) <= 100)%nat
  /\ (length (recentRtpHistory (applyBatches s config batches)) <= 30)%nat
  /\ history (applyBatches s config batches)
     = slice_last 100 (concat batches)
  /\ recentRtpHistory (applyBatches s config batches)
     = slice_last 30 (rtpSnapshots s config batches)
  /\ window_of 100 (concat batches) (history (applyBatches s config batches))
  /\ window_of 30 (rtpSnapshots s config batches)
       (recentRtpHistory (applyBatches s config batches)).
Proof.
  intros Hh Hr.
  destruct (windows_bounded s config batches) as [Bh Br].
  { rewrite Hh. simpl. lia. }
  { rewrite Hr. simpl. lia. }
  assert (Eh : history (applyBatches s config batches)
               = slice_last 100 (concat batches)).
  { rewrite <- (slice_last_short 100 (history (applyBatches s config batches)))
      by exact Bh.
    now rewrite history_applyBatches, Hh. }
  assert (Er : recentRtpHistory (applyBatches s config batches)
               = slice_last 30 (rtpSnapshots s config batches)).
  { rewrite <- (slice_last_short 30
                  (recentRtpHistory (applyBatches s config batches)))
      by exact Br.
    now rewrite recentRtpHistory_applyBatches, Hr. }
  repeat split; try assumption.
  - rewrite Eh. apply length_slice_last.
  - rewrite Eh. apply slice_last_suffix.
  - rewrite Er. apply length_slice_last.
  - rewrite Er. apply slice_last_suffix.
Qed.

Lemma bounded_windows_witness :
  let s := applyBatches (Sample.fresh Sample.bookOfDead) Sample.bookOfDead
             (repeat (repeat Sample.miss 30) 5) in
  length (history s) = 100%nat /\ totalSpins s = 150%Z
  /\ (length (recentRtpHistory s) <= 30)%nat
  /\ history s = slice_last 100 (concat (repeat (repeat Sample.miss 30) 5)).
Proof.
  destruct (bounded_windows (Sample.fresh Sample.bookOfDead) Sample.bookOfDead
              (repeat (repeat Sample.miss 30) 5) eq_refl eq_refl)
    as (_ & Br & Eh & _ & [Lh _] & _).
  cbv zeta. split; [|split; [|split]].
  - rewrite Lh. vm_compute. reflexivity.
  - vm_compute. reflexivity.
  - exact Br.
  - exact Eh.
Defined.

(** ** The accumulators *)

Lemma accumulators_le_refl (s : SlotStats) : accumulators_le s s.
Proof.
  repeat split; try apply Qle_refl. lia.
Qed.

Lemma accumulators_le_trans (s1 s2 s3 : SlotStats) :
  accumulators_le s1 s2 -> accumulators_le s2 s3 -> accumulators_le s1 s3.
Proof.
  intros (A1 & A2 & A3 & A4) (B1 & B2 & B3 & B4).
  repeat split; try (eapply Qle_trans; eassumption). lia.
Qed.

Lemma Qle_plus_nonneg (a b : Q) : 0 <= b -> a <= a + b.
Proof.
  intros H. rewrite <- (Qplus_0_r a) at 1.
  apply Qplus_le_compat; [apply Qle_refl | exact H].
Qed.

(** One call on a batch of non-negative spins. *)
Lemma applyBatch_monotone (s : SlotStats) (config : SlotConfig)
    (b : list SpinResult) :
  Forall nonneg_spin b -> accumulators_le s (applyBatch s config b).
Proof.
  intros Hb. repeat split; simpl.
  - lia.
  - apply Qle_plus_nonneg, reduce_sum_nonneg.
    eapply Forall_impl; [exact Hb|]. now intros r (H & _).
  - apply Qle_plus_nonneg, reduce_sum_nonneg.
    eapply Forall_impl; [exact Hb|]. now intros r (_ & H & _).
  - apply Math_max_ge_left.
Qed.

Lemma applyBatches_monotone (s : SlotStats) (config : SlotConfig)
    (batches : list (list SpinResult)) :
  Forall (Forall nonneg_spin) batches ->
  accumulators_le s (applyBatches s config batches).
Proof.
  intros H. revert s. induction H as [|b bs Hb _ IH]; intros s.
  - apply accumulators_le_refl.
  - rewrite applyBatches_cons.
    apply accumulators_le_trans with (applyBatch s config b);
      [now apply applyBatch_monotone | apply IH].
Qed.

(** C4.  In a run of [applyBatch] calls on one record in which every spin of
    every batch has non-negative [stake], [win] and [multiplier], no call
    decreases [totalSpins], [totalStakes], [totalWins] or [maxMultiplier]:
    the record before any call of the run is below the record after it, and
    so the record at the start is below the record at the end. *)
Theorem accumulators_monotone (s : SlotStats) (config : SlotConfig)
    (batches : list (list SpinResult)) :
  Forall (Forall nonneg_spin) batches ->
  (forall earlier b later,
      batches = earlier ++ b :: later ->
      accumulators_le (applyBatches s config earlier)
                      (applyBatch (applyBatches s config earlier) config b))
  /\ accumulators_le s (applyBatches s config batches).
Proof.
  intros H. split.
  - intros earlier b later ->.
    apply applyBatch_monotone.
    apply Forall_app in H as [_ H]. now inversion H.
  - now apply applyBatches_monotone.
Qed.

Lemma accumulators_monotone_witness :
  accumulators_le
    (applyBatches (Sample.fresh Sample.bookOfDead) Sample.bookOfDead
       [[Sample.hit]])
    (applyBatch
       (applyBatches (Sample.fresh Sample.bookOfDead) Sample.bookOfDead
          [[Sample.hit]])
       Sample.bookOfDead [Sample.miss; Sample.idle])
  /\ accumulators_le (Sample.fresh Sample.bookOfDead)
       (applyBatches (Sample.fresh Sample.bookOfDead) Sample.bookOfDead
          [[Sample.hit]; [Sample.miss; Sample.idle]; []]).
Proof.
  assert (H : Forall (Forall nonneg_spin)
                [[Sample.hit]; [Sample.miss; Sample.idle]; []]).
  { repeat constructor; simpl; discriminate. }
  destruct (accumulators_monotone (Sample.fresh Sample.bookOfDead)
              Sample.bookOfDead _ H) as [Step Whole].
  split.
  - apply (Step [[Sample.hit]] [Sample.miss; Sample.idle] [[]]). reflexivity.
  - exact Whole.
Defined.

Lemma fold_sum_map {A : Type} (f : A -> Q) (xs : list A) (acc : Q) :
  fold_left (fun sum r => sum + f r) xs acc = fold_left Qplus (map f xs) acc.
Proof.
  revert acc. induction xs as [|x xs IH]; intros acc; simpl; auto.
Qed.

Lemma reduce_sum_left_sum {A : Type} (f : A -> Q) (xs : list A) :
  reduce_sum f xs = left_sum (map f xs).
Proof. apply fold_sum_map. Qed.

Lemma double_fold_map {A : Type} (f : A -> SpecFloat.spec_float)
    (xs : list A) (acc : SpecFloat.spec_float) :
  fold_left (fun sum r => Double.add sum (f r)) xs acc
  = fold_left Double.add (map f xs) acc.
Proof.
  revert acc. induction xs as [|x xs IH]; intros acc; simpl; auto.
Qed.

(** C5, as stated, fails on the doubles the program adds.  One batch of 100
    spins at stake 0.1 takes [totalStakes] from 0 to 9.99999999999998, which
    is not the sum of the hundred stake fields; and at 2^53 spins a batch of
    one spin leaves [totalSpins] where it was. *)
Lemma sums_are_rounded :
  Double.totalStakes
    (Double.accumulate Double.zeroTotals (repeat Double.tenthSpin 100))
  = Double.just_under_ten
  /\ ~ Double.exact
         (Double.totalStakes
            (Double.accumulate Double.zeroTotals
               (repeat Double.tenthSpin 100)))
       == Double.exact (Double.totalStakes Double.zeroTotals)
          + Qsum (map (fun r => Double.exact (Double.stake r))
                    (repeat Double.tenthSpin 100))
  /\ Double.totalSpins
       (Double.accumulate
          {| Double.totalSpins := Double.two_to_53;
             Double.totalStakes := Double.just_under_ten;
             Double.totalWins := Double.just_under_ten |}
          [Double.tenthSpin])
     = Double.two_to_53
  /\ Double.exact Double.two_to_53 == 9007199254740992.
Proof.
  split; [vm_compute; reflexivity|].
  split; [vm_compute; discriminate|].
  split; vm_compute; reflexivity.
Qed.

(** C5, amended.  One [applyBatch] call on a non-empty batch adds the length
    of the batch to [totalSpins] (an exact count as long as it stays within
    2^53), sets [totalStakes] to its previous value plus the batch's stakes
    added one by one from 0, left to right, and [totalWins] likewise, and
    sets [maxMultiplier] to the maximum of its previous value and the
    batch's multipliers: a value that bounds all of them and is one of them.
    In binary64 the two sums are the same chain of additions, each of them
    rounded. *)
Theorem accumulators_step (s : SlotStats) (config : SlotConfig)
    (b : list SpinResult) (t : Double.Totals) (d : list Double.SpinResult) :
  b <> [] ->
  (0 <= totalSpins s)%Z ->
  (totalSpins s + Z.of_nat (length b) <= 2 ^ 53)%Z ->
  totalSpins (applyBatch s config b)
  = (totalSpins s + Z.of_nat (length b))%Z
  /\ totalStakes (applyBatch s config b)
     = totalStakes s + left_sum (map stake b)
  /\ totalWins (applyBatch s config b)
     = totalWins s + left_sum (map win b)
  /\ maxMultiplier s <= maxMultiplier (applyBatch s config b)
  /\ Forall (fun r => multiplier r <= maxMultiplier (applyBatch s config b)) b
  /\ (maxMultiplier (applyBatch s config b) = maxMultiplier s
      \/ exists r, In r b
                   /\ maxMultiplier (applyBatch s config b) = multiplier r)
  /\ Double.totalStakes (Double.accumulate t d)
     = Double.add (Double.totalStakes t)
         (Double.left_sum (map Double.stake d))
  /\ Double.totalWins (Double.accumulate t d)
     = Double.add (Double.totalWins t)
         (Double.left_sum (map Double.win d)).
Proof.
  intros Hb _ _. destruct b as [|r0 b]; [congruence|]. clear Hb.
  split; [reflexivity|].
  split; [cbn [totalStakes applyBatch]; unfold batchStakes;
          now rewrite reduce_sum_left_sum|].
  split; [cbn [totalWins applyBatch]; unfold batchWins;
          now rewrite reduce_sum_left_sum|].
  split; [apply Math_max_ge_left|].
  assert (Hdouble :
    Double.totalStakes (Double.accumulate t d)
    = Double.add (Double.totalStakes t)
        (Double.left_sum (map Double.stake d))
    /\ Double.totalWins (Double.accumulate t d)
       = Double.add (Double.totalWins t)
           (Double.left_sum (map Double.win d))).
  { unfold Double.accumulate, Double.batchStakes, Double.batchWins,
      Double.left_sum.
    cbn [Double.totalStakes Double.totalWins].
    rewrite (double_fold_map Double.stake), (double_fold_map Double.win).
    now split. }
  cbn [maxMultiplier applyBatch]. unfold batchMaxMulti.
  destruct (Math_max_spread_nonempty (multiplier r0) (map multiplier b))
    as (m & Hm & Hall & Hin).
  change (map multiplier (r0 :: b)) with (multiplier r0 :: map multiplier b).
  rewrite Hm. split; [|split; [|exact Hdouble]].
  - change (multiplier r0 :: map multiplier b)
      with (map multiplier (r0 :: b)) in Hall.
    rewrite Forall_map in Hall.
    eapply Forall_impl; [exact Hall|].
    intros r Hr. simpl in Hr.
    eapply Qle_trans; [exact Hr | apply Math_max_ge_right].
  - destruct (Math_max_attained (maxMultiplier s) m) as [E|E].
    + now left.
    + right.
      change (multiplier r0 :: map multiplier b)
        with (map multiplier (r0 :: b)) in Hin.
      apply in_map_iff in Hin as (r & Hr & Hin).
      exists r. split; [exact Hin|]. now rewrite E.
Qed.

Lemma accumulators_step_witness :
  let s := applyBatch (Sample.fresh Sample.bookOfDead) Sample.bookOfDead
             [Sample.miss; Sample.hit; Sample.miss] in
  totalSpins s = 3%Z /\ totalStakes s = 3 /\ totalWins s = 3
  /\ Forall (fun r => multiplier r <= maxMultiplier s)
       [Sample.miss; Sample.hit; Sample.miss]
  /\ Double.totalStakes
       (Double.accumulate Double.zeroTotals (repeat Double.tenthSpin 100))
     = Double.add (Double.totalStakes Double.zeroTotals)
         (Double.left_sum (repeat Double.tenth 100)).
Proof.
  destruct (accumulators_step (Sample.fresh Sample.bookOfDead)
              Sample.bookOfDead [Sample.miss; Sample.hit; Sample.miss]
              Double.zeroTotals (repeat Double.tenthSpin 100))
    as (Hn & Hs & Hw & _ & Hall & _ & Hd & _).
  - discriminate.
  - simpl. lia.
  - simpl. lia.
  - cbv zeta. split; [|split; [|split; [|split]]].
    + rewrite Hn. reflexivity.
    + rewrite Hs. reflexivity.
    + rewrite Hw. reflexivity.
    + exact Hall.
    + rewrite Hd. reflexivity.
Defined.

(** ** Trend and the charted snapshot *)

(** C6.  After an [applyBatch] call, [trend] is [up] exactly when the
    [liveRtp] it wrote is strictly greater than the [liveRtp] stored before
    the call, and [down] in every other case, an exact tie included. *)
Theorem trend_strict_comparison (s : SlotStats) (config : SlotConfig)
    (b : list SpinResult) :
  (trend (applyBatch s config b) = up
   <-> liveRtp s < liveRtp (applyBatch s config b))
  /\ (~ liveRtp s < liveRtp (applyBatch s config b)
      -> trend (applyBatch s config b) = down)
  /\ (liveRtp (applyBatch s config b) == liveRtp s
      -> trend (applyBatch s config b) = down).
Proof.
  assert (Hup : trend (applyBatch s config b) = up
                <-> liveRtp s < liveRtp (applyBatch s config b)).
  { rewrite <- gt_spec. cbn [trend liveRtp applyBatch].
    destruct (gt _ _); split; congruence. }
  assert (Hdown : ~ liveRtp s < liveRtp (applyBatch s config b)
                  -> trend (applyBatch s config b) = down).
  { intros Hn. destruct (trend (applyBatch s config b)) eqn:E; [|reflexivity].
    exfalso. apply Hn, Hup. reflexivity. }
  repeat split; try apply Hup; try exact Hdown.
  intros Heq. apply Hdown. rewrite Heq. apply Qlt_irrefl.
Qed.

Lemma trend_strict_comparison_witness :
  trend (applyBatch (Sample.fresh Sample.bookOfDead) Sample.bookOfDead
           [Sample.hit]) = up
  /\ trend (applyBatch (Sample.fresh Sample.bookOfDead) Sample.bookOfDead
              [Sample.miss]) = down
  /\ trend (applyBatch (Sample.fresh Sample.bookOfDead) Sample.bookOfDead
              [Sample.idle]) = down.
Proof.
  split; [|split].
  - apply (proj1 (trend_strict_comparison (Sample.fresh Sample.bookOfDead)
                    Sample.bookOfDead [Sample.hit])).
    reflexivity.
  - apply (proj1 (proj2 (trend_strict_comparison
                           (Sample.fresh Sample.bookOfDead)
                           Sample.bookOfDead [Sample.miss]))).
    vm_compute. discriminate.
  - apply (proj2 (proj2 (trend_strict_comparison
                           (Sample.fresh Sample.bookOfDead)
                           Sample.bookOfDead [Sample.idle]))).
    reflexivity.
Defined.

Lemma last_recentRtpHistory (s : SlotStats) (config : SlotConfig)
    (b : list SpinResult) :
  last (recentRtpHistory (applyBatch s config b))
  = Some (liveRtp (applyBatch s config b)).
Proof.
  rewrite recentRtpHistory_applyBatch. apply last_slice_last_snoc. lia.
Qed.

(** C9.  After an [applyBatch] call on a non-empty batch,
    [recentRtpHistory] is not empty and its last element is the [liveRtp]
    the same call stored. *)
Theorem snapshot_is_liveRtp (s : SlotStats) (config : SlotConfig)
    (b : list SpinResult) :
  b <> [] ->
  recentRtpHistory (applyBatch s config b) <> []
  /\ last (recentRtpHistory (applyBatch s config b))
     = Some (liveRtp (applyBatch s config b)).
Proof.
  intros _. pose proof (last_recentRtpHistory s config b) as H.
  split; [|exact H].
  intros E. rewrite E in H. discriminate.
Qed.

Lemma snapshot_is_liveRtp_witness :
  last (recentRtpHistory
          (applyBatch (Sample.fresh Sample.bookOfDead) Sample.bookOfDead
             [Sample.hit; Sample.miss]))
  = Some ((3 / 2) * 100).
Proof.
  apply (snapshot_is_liveRtp (Sample.fresh Sample.bookOfDead)
           Sample.bookOfDead [Sample.hit; Sample.miss]).
  discriminate.
Defined.

(** ** The empty batch *)

Lemma Qplus_zero_right (q : Q) : q + 0 = q.
Proof.
  destruct q as [n d]. unfold Qplus. simpl.
  rewrite Z.mul_1_r, Z.add_0_r, Pos.mul_1_r. reflexivity.
Qed.

(** C7, as stated, fails: on an empty batch the aggregator completes
    normally, with a record that differs from the one it was given. *)
Lemma empty_batch_not_signalled :
  aggregate (Some (Sample.fresh Sample.bookOfDead)) Sample.bookOfDead []
  = Normal {| liveRtp := 96; totalSpins := 0; totalStakes := 0; totalWins := 0;
              maxMultiplier := 0; history := []; recentRtpHistory := [96];
              trend := down |}
  /\ ~ exists e,
         aggregate (Some (Sample.fresh Sample.bookOfDead)) Sample.bookOfDead []
         = Throw e.
Proof.
  split.
  - reflexivity.
  - intros [e H]. discriminate H.
Qed.

(** C7, amended.  On an empty batch the aggregator signals nothing and
    returns an updated record: the four accumulators are unchanged and
    [history] is cut to its last 100 entries, while [liveRtp] is recomputed
    from the unchanged totals, appended to [recentRtpHistory] (cut to its
    last 30 entries) and compared with the previous [liveRtp] to set
    [trend]. *)
Theorem empty_batch_accepted (s : SlotStats) (config : SlotConfig) :
  aggregate (Some s) config [] = Normal (applyBatch s config [])
  /\ totalSpins (applyBatch s config []) = totalSpins s
  /\ totalStakes (applyBatch s config []) = totalStakes s
  /\ totalWins (applyBatch s config []) = totalWins s
  /\ maxMultiplier (applyBatch s config []) = maxMultiplier s
  /\ history (applyBatch s config []) = slice_last 100 (history s)
  /\ liveRtp (applyBatch s config [])
     = newLiveRtp (totalStakes s) (totalWins s) config
  /\ recentRtpHistory (applyBatch s config [])
     = slice_last 30 (recentRtpHistory s
                      ++ [newLiveRtp (totalStakes s) (totalWins s) config])
  /\ trend (applyBatch s config [])
     = if gt (newLiveRtp (totalStakes s) (totalWins s) config) (liveRtp s)
       then up else down.
Proof.
  split; [reflexivity|].
  unfold applyBatch. cbn [batchStakes batchWins batchMaxMulti reduce_sum
    Math_max_spread map fold_left Math_max length Z.of_nat
    liveRtp totalSpins totalStakes totalWins maxMultiplier history
    recentRtpHistory trend aggregate].
  rewrite !Qplus_zero_right, Z.add_0_r, app_nil_r.
  repeat split.
Qed.

(** ** One tick: which records it touches *)

Section TickFacts.

Variable Rng : Type.
Variable runBatchSimulation :
  SlotConfig -> nat -> Q -> Rng -> list SpinResult * Rng.
Variable SLOTS : list SlotConfig.

Local Abbreviation tickSlot' := (tickSlot Rng runBatchSimulation SLOTS).
Local Abbreviation forEach' := (forEach Rng runBatchSimulation SLOTS).
Local Abbreviation processSimulations' :=
  (processSimulations Rng runBatchSimulation SLOTS).

(** An id the catalog does not know is skipped: same map, same generator
    state, nothing thrown. *)
Lemma tickSlot_unknown (globalStake : Q) (nextMap : gmap string SlotStats)
    (slotId : string) (rng : Rng) :
  findConfig SLOTS slotId = None ->
  tickSlot' globalStake nextMap slotId rng = (Normal nextMap, rng).
Proof.
  intros H. unfold tickSlot. rewrite H. reflexivity.
Qed.

(** A visit that completes writes at most the key it visits. *)
Lemma tickSlot_frame (globalStake : Q) (nextMap next : gmap string SlotStats)
    (slotId : string) (rng rng' : Rng) :
  tickSlot' globalStake nextMap slotId rng = (Normal next, rng') ->
  forall other : string, other <> slotId -> next !! other = nextMap !! other.
Proof.
  unfold tickSlot. destruct (findConfig SLOTS slotId) as [config|].
  - unfold bind, draw, lift, ret.
    destruct (runBatchSimulation config 100%nat globalStake rng)
      as [batchResults rng1].
    destruct (aggregate (nextMap !! slotId) config batchResults)
      as [updated|e]; intros H; inversion H; subst.
    intros other Hne. now rewrite lookup_insert_ne.
  - unfold ret. intros H; inversion H; subst. reflexivity.
Qed.

Lemma forEach_cons (globalStake : Q) (slotId : string) (rest : list string)
    (nextMap : gmap string SlotStats) (rng : Rng) :
  forEach' globalStake (slotId :: rest) nextMap rng
  = match tickSlot' globalStake nextMap slotId rng with
    | (Normal m, rng1) => forEach' globalStake rest m rng1
    | (Throw e, rng1) => (Throw e, rng1)
    end.
Proof. reflexivity. Qed.

Lemma forEach_frame (globalStake : Q) (slots : list string)
    (nextMap next : gmap string SlotStats) (rng rng' : Rng) :
  forEach' globalStake slots nextMap rng = (Normal next, rng') ->
  forall other : string,
    ~ In other slots \/ findConfig SLOTS other = None ->
    next !! other = nextMap !! other.
Proof.
  revert nextMap rng.
  induction slots as [|slotId rest IH]; intros nextMap rng H other Hother.
  - inversion H; subst. reflexivity.
  - rewrite forEach_cons in H.
    destruct (tickSlot' globalStake nextMap slotId rng) as [[m|e] rng1] eqn:E;
      [|discriminate H].
    assert (Hm : m !! other = nextMap !! other).
    { destruct (decide (other = slotId)) as [->|Hne].
      - destruct Hother as [Hnot|Hnone].
        + exfalso. apply Hnot. now left.
        + rewrite (tickSlot_unknown _ _ _ _ Hnone) in E.
          inversion E; subst. reflexivity.
      - eapply tickSlot_frame; eassumption. }
    rewrite <- Hm. apply (IH _ _ H).
    destruct Hother as [Hnot|Hnone]; [left | now right].
    intros Hin. apply Hnot. now right.
Qed.

(** Dropping an unknown id from the visited ids changes nothing. *)
Lemma forEach_skip_unknown (globalStake : Q) (slots : list string)
    (ghost : string) (nextMap : gmap string SlotStats) (rng : Rng) :
  findConfig SLOTS ghost = None ->
  forEach' globalStake slots nextMap rng
  = forEach' globalStake
      (List.filter (fun slotId => negb (String.eqb slotId ghost)) slots)
      nextMap rng.
Proof.
  intros Hnone. revert nextMap rng.
  induction slots as [|slotId rest IH]; intros nextMap rng.
  - reflexivity.
  - cbn [List.filter]. destruct (String.eqb slotId ghost) eqn:E; cbn [negb].
    + apply String.eqb_eq in E. subst slotId.
      rewrite forEach_cons, (tickSlot_unknown _ _ _ _ Hnone). apply IH.
    + rewrite !forEach_cons.
      destruct (tickSlot' globalStake nextMap slotId rng) as [[m|e] rng1];
        [apply IH | reflexivity].
Qed.

Lemma findConfig_Some (slotId : string) (config : SlotConfig) :
  findConfig SLOTS slotId = Some config ->
  In config SLOTS /\ id config = slotId.
Proof.
  intros H. apply find_some in H as [Hin Heq].
  split; [exact Hin | now apply String.eqb_eq].
Qed.

(** A tick completes when every active id the catalog knows has a record;
    it then keeps every key the map had. *)
Lemma forEach_completes (globalStake : Q) (slots : list string)
    (nextMap : gmap string SlotStats) (rng : Rng) :
  (forall slotId, In slotId slots -> findConfig SLOTS slotId <> None ->
                  is_Some (nextMap !! slotId)) ->
  exists next rng',
    forEach' globalStake slots nextMap rng = (Normal next, rng')
    /\ forall key, is_Some (nextMap !! key) -> is_Some (next !! key).
Proof.
  revert nextMap rng.
  induction slots as [|slotId rest IH]; intros nextMap rng Hrec.
  - exists nextMap, rng. split; [reflexivity | auto].
  - assert (Hstep : exists m rng1,
               tickSlot' globalStake nextMap slotId rng = (Normal m, rng1)
               /\ forall key, is_Some (nextMap !! key) -> is_Some (m !! key)).
    { unfold tickSlot.
      destruct (findConfig SLOTS slotId) as [config|] eqn:E.
      - destruct (Hrec slotId) as [cs Hcs]; [now left | congruence |].
        unfold bind, draw, lift, ret. rewrite Hcs.
        destruct (runBatchSimulation config 100%nat globalStake rng)
          as [batchResults rng1].
        eexists _, rng1. split; [reflexivity|].
        intros key Hkey. destruct (decide (key = slotId)) as [->|Hne].
        + rewrite lookup_insert_eq. eauto.
        + now rewrite lookup_insert_ne.
      - exists nextMap, rng. split; [reflexivity | auto]. }
    destruct Hstep as (m & rng1 & Hm & Hkeys).
    destruct (IH m rng1) as (next & rng' & Hnext & Hkeys').
    { intros other Hin Hknown. apply Hkeys, Hrec; [now right | exact Hknown]. }
    exists next, rng'. rewrite forEach_cons, Hm. split; [exact Hnext | auto].
Qed.

(** C8, amended.  An active id that is absent from the catalog gets no
    record: after the tick the map holds at that key what it held before.
    The id is passed over in silence: the tick behaves exactly as if the id
    were not in the active set, and nothing is reported for it. *)
Theorem unknown_asset_skipped (activeSlots : list string) (globalStake : Q)
    (prev : gmap string SlotStats) (rng : Rng) (slotId : string) :
  In slotId activeSlots ->
  findConfig SLOTS slotId = None ->
  processSimulations' activeSlots globalStake prev rng
  = processSimulations'
      (List.filter (fun other => negb (String.eqb other slotId)) activeSlots)
      globalStake prev rng
  /\ forall next rng',
       processSimulations' activeSlots globalStake prev rng
       = (Normal next, rng') ->
       next !! slotId = prev !! slotId.
Proof.
  intros _ Hnone. split.
  - unfold processSimulations. now apply forEach_skip_unknown.
  - intros next rng' H. unfold processSimulations in H.
    eapply forEach_frame; [exact H | now right].
Qed.

(** C10.  A tick that completes leaves the record of every id that is not
    active, and of every active id missing from the catalog, as it was, and
    creates none for it; a key whose entry differs after the tick is an
    active id for which the catalog has a configuration. *)
Theorem tick_frame (activeSlots : list string) (globalStake : Q)
    (prev next : gmap string SlotStats) (rng rng' : Rng) :
  processSimulations' activeSlots globalStake prev rng = (Normal next, rng') ->
  (forall slotId : string,
      ~ In slotId activeSlots \/ findConfig SLOTS slotId = None ->
      next !! slotId = prev !! slotId)
  /\ (forall slotId : string,
        next !! slotId <> prev !! slotId ->
        In slotId activeSlots
        /\ exists config, In config SLOTS /\ id config = slotId).
Proof.
  intros H. unfold processSimulations in H.
  pose proof (forEach_frame _ _ _ _ _ _ H) as Hframe.
  split; [exact Hframe|].
  intros slotId Hdiff.
  destruct (in_dec String.string_dec slotId activeSlots) as [Hin|Hnot].
  - split; [exact Hin|].
    destruct (findConfig SLOTS slotId) as [config|] eqn:E.
    + exists config. now apply findConfig_Some.
    + exfalso. apply Hdiff, Hframe. now right.
  - exfalso. apply Hdiff, Hframe. now left.
Qed.

End TickFacts.

(** C8, as stated, fails: with an id the catalog does not know in the
    active set, the tick completes normally and hands back the map it was
    given; nothing is thrown. *)
Lemma unknown_asset_not_signalled :
  findConfig Sample.catalog "ghost-slot" = None
  /\ processSimulations nat Sample.losingEngine Sample.catalog
       ["ghost-slot"] 1 Sample.statsMap 0%nat
     = (Normal Sample.statsMap, 0%nat)
  /\ ~ exists e rng',
         processSimulations nat Sample.losingEngine Sample.catalog
           ["ghost-slot"] 1 Sample.statsMap 0%nat
         = (Throw e, rng').
Proof.
  split; [reflexivity|]. split.
  - reflexivity.
  - intros (e & rng' & H). discriminate H.
Qed.

Lemma unknown_asset_skipped_witness :
  processSimulations nat Sample.losingEngine Sample.catalog
    ["ghost-slot"; "book-of-dead"] 1 Sample.statsMap 0%nat
  = processSimulations nat Sample.losingEngine Sample.catalog
      ["book-of-dead"] 1 Sample.statsMap 0%nat
  /\ Sample.tickedMap !! "ghost-slot" = Sample.statsMap !! "ghost-slot".
Proof.
  destruct (unknown_asset_skipped nat Sample.losingEngine Sample.catalog
              ["ghost-slot"; "book-of-dead"] 1 Sample.statsMap 0%nat
              "ghost-slot") as [Hsame Hkey].
  - left. reflexivity.
  - reflexivity.
  - split; [exact Hsame|].
    apply (Hkey Sample.tickedMap 1%nat). reflexivity.
Defined.

Lemma tick_frame_witness :
  Sample.tickedMap !! "razor-shark" = Sample.statsMap !! "razor-shark"
  /\ Sample.tickedMap !! "ghost-slot" = Sample.statsMap !! "ghost-slot".
Proof.
  destruct (tick_frame nat Sample.losingEngine Sample.catalog
              ["ghost-slot"; "book-of-dead"] 1 Sample.statsMap
              Sample.tickedMap 0%nat 1%nat) as [Hframe _].
  - reflexivity.
  - split; apply Hframe.
    + left. intros [H|[H|[]]]; discriminate H.
    + right. reflexivity.
Defined.

(** ** The scenarios of the specification, evaluated *)

Example scenario_batch_of_100 :
  let s := applyBatch (Sample.fresh Sample.bookOfDead) Sample.bookOfDead
             (repeat Sample.miss 100) in
  totalSpins s = 100%Z /\ totalStakes s == 100 /\ length (history s) = 100%nat
  /\ liveRtp s == 0 /\ trend s = down.
Proof. vm_compute. repeat split. Qed.

Example scenario_tick :
  option_map totalSpins (Sample.tickedMap !! "book-of-dead") = Some 100%Z
  /\ option_map totalSpins (Sample.tickedMap !! "razor-shark") = Some 0%Z
  /\ Sample.tickedMap !! "ghost-slot" = None.
Proof. vm_compute. repeat split. Qed.

Example scenario_missing_record :
  processSimulations nat Sample.losingEngine Sample.catalog
    ["book-of-dead"] 1 ∅ 0%nat
  = (Throw TypeError, 1%nat).
Proof. reflexivity. Qed.

(** ** Toggling an asset in the active set *)

Lemma has_In (s : list string) (id : string) :
  ActiveSet.has s id = true <-> In id s.
Proof.
  unfold ActiveSet.has. rewrite existsb_exists. split.
  - intros (x & Hx & E). apply String.eqb_eq in E. now subst.
  - intros H. exists id. split; [exact H | apply String.eqb_refl].
Qed.

Lemma has_not_In (s : list string) (id : string) :
  ActiveSet.has s id = false <-> ~ In id s.
Proof.
  rewrite <- has_In. destruct (ActiveSet.has s id); split; congruence.
Qed.

Lemma In_delete (s : list string) (id other : string) :
  In other (ActiveSet.delete s id) <-> In other s /\ other <> id.
Proof.
  unfold ActiveSet.delete. rewrite filter_In, negb_true_iff.
  now rewrite String.eqb_neq.
Qed.

Lemma delete_absent (s : list string) (id : string) :
  ~ In id s -> ActiveSet.delete s id = s.
Proof.
  induction s as [|x s IH]; intros H; simpl.
  - reflexivity.
  - destruct (String.eqb x id) eqn:E.
    + apply String.eqb_eq in E. exfalso. apply H. now left.
    + simpl. rewrite IH; [reflexivity|]. intros Hin. apply H. now right.
Qed.

Lemma delete_app (s t : list string) (id : string) :
  ActiveSet.delete (s ++ t) id = ActiveSet.delete s id ++ ActiveSet.delete t id.
Proof. unfold ActiveSet.delete. apply List.filter_app. Qed.

Lemma length_delete_present (s : list string) (id : string) :
  List.NoDup s -> In id s -> S (length (ActiveSet.delete s id)) = length s.
Proof.
  induction 1 as [|x s Hx Hs IH]; intros Hin; [destruct Hin|].
  simpl. destruct (String.eqb x id) eqn:E; simpl.
  - apply String.eqb_eq in E. subst x.
    rewrite delete_absent; [reflexivity | exact Hx].
  - apply String.eqb_neq in E. destruct Hin as [->|Hin]; [congruence|].
    now rewrite IH.
Qed.

Lemma NoDup_delete (s : list string) (id : string) :
  List.NoDup s -> List.NoDup (ActiveSet.delete s id).
Proof. apply List.NoDup_filter. Qed.

(** X1.  Toggling an id flips whether it is tracked and leaves every other id
    tracked or untracked as it was. *)
Theorem toggle_membership (id : string) (prev : list string) :
  (In id (toggleSlotTracking id prev) <-> ~ In id prev)
  /\ forall other : string,
       other <> id ->
       (In other (toggleSlotTracking id prev) <-> In other prev).
Proof.
  unfold toggleSlotTracking, ActiveSet.add. cbv zeta.
  destruct (ActiveSet.has prev id) eqn:E.
  - apply has_In in E. split.
    + rewrite In_delete. split; [intros [_ H]; congruence | tauto].
    + intros other Hne. rewrite In_delete. tauto.
  - apply has_not_In in E. split.
    + rewrite in_app_iff. simpl. tauto.
    + intros other Hne. rewrite in_app_iff. simpl.
      split; [intros [H|[H|[]]]; [exact H | congruence] | tauto].
Qed.

Lemma toggle_membership_witness :
  In "razor-shark" (toggleSlotTracking "book-of-dead" initialActiveSlots)
  /\ In "sweet-bonanza" (toggleSlotTracking "sweet-bonanza" initialActiveSlots).
Proof.
  split.
  - apply (proj2 (toggle_membership "book-of-dead" initialActiveSlots)
             "razor-shark").
    + discriminate.
    + right. left. reflexivity.
  - apply (proj1 (toggle_membership "sweet-bonanza" initialActiveSlots)).
    intros [H|[H|[]]]; discriminate H.
Defined.

(** X2.  On a duplicate-free set, toggling keeps the set duplicate-free and
    changes its size by exactly one: down when the id was tracked, up when
    it was not. *)
Theorem toggle_size (id : string) (prev : list string) :
  List.NoDup prev ->
  List.NoDup (toggleSlotTracking id prev)
  /\ (In id prev -> S (length (toggleSlotTracking id prev)) = length prev)
  /\ (~ In id prev -> length (toggleSlotTracking id prev) = S (length prev)).
Proof.
  intros Hnd. unfold toggleSlotTracking, ActiveSet.add. cbv zeta.
  destruct (ActiveSet.has prev id) eqn:E.
  - apply has_In in E. split; [now apply NoDup_delete|]. split.
    + intros _. now apply length_delete_present.
    + intros H. contradiction.
  - apply has_not_In in E. split; [|split].
    + apply List.NoDup_app; [exact Hnd | repeat constructor; intros [] |].
      intros x Hx [<-|[]]. contradiction.
    + intros H. contradiction.
    + intros _. rewrite length_app. simpl. lia.
Qed.

Lemma toggle_size_witness :
  List.NoDup (toggleSlotTracking "razor-shark" initialActiveSlots)
  /\ S (length (toggleSlotTracking "razor-shark" initialActiveSlots)) = 2%nat
  /\ length (toggleSlotTracking "sweet-bonanza" initialActiveSlots) = 3%nat.
Proof.
  assert (Hnd : List.NoDup initialActiveSlots).
  { repeat constructor; simpl; intuition discriminate. }
  split; [|split].
  - apply (toggle_size "razor-shark" initialActiveSlots Hnd).
  - apply (proj1 (proj2 (toggle_size "razor-shark" initialActiveSlots Hnd))).
    right. left. reflexivity.
  - apply (proj2 (proj2 (toggle_size "sweet-bonanza" initialActiveSlots Hnd))).
    intros [H|[H|[]]]; discriminate H.
Defined.

(** X3.  Toggling the same id twice gives back the same members.  For an id that
    was not tracked the set comes back as it was; an id that was tracked
    comes back as the last element in iteration order. *)
Theorem toggle_twice (id : string) (prev : list string) :
  (forall other : string,
      In other (toggleSlotTracking id (toggleSlotTracking id prev))
      <-> In other prev)
  /\ (~ In id prev ->
      toggleSlotTracking id (toggleSlotTracking id prev) = prev)
  /\ (In id prev ->
      toggleSlotTracking id (toggleSlotTracking id prev)
      = ActiveSet.delete prev id ++ [id]).
Proof.
  assert (Habsent : ~ In id prev ->
            toggleSlotTracking id (toggleSlotTracking id prev) = prev).
  { intros H. unfold toggleSlotTracking at 2. cbv zeta.
    rewrite (proj2 (has_not_In prev id) H).
    unfold ActiveSet.add. rewrite (proj2 (has_not_In prev id) H).
    unfold toggleSlotTracking. cbv zeta.
    rewrite (proj2 (has_In (prev ++ [id]) id))
      by (apply in_app_iff; right; now left).
    rewrite delete_app, (delete_absent _ _ H).
    unfold ActiveSet.delete. simpl. rewrite String.eqb_refl. simpl.
    apply app_nil_r. }
  assert (Hpresent : In id prev ->
            toggleSlotTracking id (toggleSlotTracking id prev)
            = ActiveSet.delete prev id ++ [id]).
  { intros H. unfold toggleSlotTracking at 2. cbv zeta.
    rewrite (proj2 (has_In prev id) H).
    assert (Hgone : ~ In id (ActiveSet.delete prev id)).
    { rewrite In_delete. tauto. }
    unfold toggleSlotTracking. cbv zeta.
    rewrite (proj2 (has_not_In _ id) Hgone).
    unfold ActiveSet.add. now rewrite (proj2 (has_not_In _ id) Hgone). }
  split; [|split; assumption].
  intros other. destruct (in_dec String.string_dec id prev) as [Hin|Hnot].
  - rewrite (Hpresent Hin), in_app_iff, In_delete. simpl.
    destruct (String.string_dec other id) as [->|Hne];
      intuition (subst; auto; congruence).
  - now rewrite (Habsent Hnot).
Qed.

Lemma toggle_twice_witness :
  toggleSlotTracking "sweet-bonanza"
    (toggleSlotTracking "sweet-bonanza" initialActiveSlots)
  = initialActiveSlots
  /\ toggleSlotTracking "book-of-dead"
       (toggleSlotTracking "book-of-dead" initialActiveSlots)
     = ["razor-shark"; "book-of-dead"].
Proof.
  split.
  - apply (proj1 (proj2 (toggle_twice "sweet-bonanza" initialActiveSlots))).
    intros [H|[H|[]]]; discriminate H.
  - apply (proj2 (proj2 (toggle_twice "book-of-dead" initialActiveSlots))).
    left. reflexivity.
Defined.

(** ** One tick: when it completes and what it writes *)

Section TickOutcome.

Variable Rng : Type.
Variable runBatchSimulation :
  SlotConfig -> nat -> Q -> Rng -> list SpinResult * Rng.
Variable SLOTS : list SlotConfig.

Local Abbreviation tickSlot' := (tickSlot Rng runBatchSimulation SLOTS).
Local Abbreviation forEach' := (forEach Rng runBatchSimulation SLOTS).
Local Abbreviation processSimulations' :=
  (processSimulations Rng runBatchSimulation SLOTS).

(** The visit of an id the catalog knows and the map has a record for. *)
Lemma tickSlot_known (globalStake : Q) (nextMap : gmap string SlotStats)
    (slotId : string) (rng : Rng) (config : SlotConfig) (cs : SlotStats) :
  findConfig SLOTS slotId = Some config ->
  nextMap !! slotId = Some cs ->
  tickSlot' globalStake nextMap slotId rng
  = (Normal (<[slotId :=
                 applyBatch cs config
                   (fst (runBatchSimulation config 100%nat globalStake rng))]>
               nextMap),
     snd (runBatchSimulation config 100%nat globalStake rng)).
Proof.
  intros Hc Hs. unfold tickSlot, bind, draw, lift, ret. rewrite Hc, Hs.
  now destruct (runBatchSimulation config 100%nat globalStake rng).
Qed.

(** The visit of an id the catalog knows and the map has no record for. *)
Lemma tickSlot_missing (globalStake : Q) (nextMap : gmap string SlotStats)
    (slotId : string) (rng : Rng) (config : SlotConfig) :
  findConfig SLOTS slotId = Some config ->
  nextMap !! slotId = None ->
  tickSlot' globalStake nextMap slotId rng
  = (Throw TypeError,
     snd (runBatchSimulation config 100%nat globalStake rng)).
Proof.
  intros Hc Hs. unfold tickSlot, bind, draw, lift, ret. rewrite Hc, Hs.
  now destruct (runBatchSimulation config 100%nat globalStake rng).
Qed.

Lemma tickSlot_normal_inv (globalStake : Q)
    (nextMap m : gmap string SlotStats) (slotId : string) (rng rng1 : Rng) :
  tickSlot' globalStake nextMap slotId rng = (Normal m, rng1) ->
  (findConfig SLOTS slotId <> None -> is_Some (nextMap !! slotId))
  /\ forall key : string, is_Some (m !! key) <-> is_Some (nextMap !! key).
Proof.
  destruct (findConfig SLOTS slotId) as [config|] eqn:Hc.
  - destruct (nextMap !! slotId) as [cs|] eqn:Hs.
    + rewrite (tickSlot_known _ _ _ _ _ _ Hc Hs). intros H. inversion H; subst.
      split; [eauto|]. intros key.
      destruct (decide (key = slotId)) as [->|Hne].
      * rewrite lookup_insert_eq, Hs. split; eauto.
      * now rewrite lookup_insert_ne.
    + rewrite (tickSlot_missing _ _ _ _ _ Hc Hs). discriminate.
  - rewrite (tickSlot_unknown _ _ _ _ _ _ _ Hc). intros H. inversion H; subst.
    split; [congruence | reflexivity].
Qed.

Lemma forEach_normal_inv (globalStake : Q) (slots : list string)
    (nextMap next : gmap string SlotStats) (rng rng' : Rng) :
  forEach' globalStake slots nextMap rng = (Normal next, rng') ->
  (forall slotId, In slotId slots -> findConfig SLOTS slotId <> None ->
                  is_Some (nextMap !! slotId))
  /\ forall key : string, is_Some (next !! key) <-> is_Some (nextMap !! key).
Proof.
  revert nextMap rng.
  induction slots as [|x rest IH]; intros nextMap rng H.
  - inversion H; subst. split; [intros ? [] | reflexivity].
  - rewrite forEach_cons in H.
    destruct (tickSlot' globalStake nextMap x rng) as [[m|e] rng1] eqn:E;
      [|discriminate H].
    destruct (tickSlot_normal_inv _ _ _ _ _ _ E) as [Hx Hkeys].
    destruct (IH _ _ H) as [Hrest Hkeys'].
    split.
    + intros slotId [->|Hin] Hknown; [now apply Hx|].
      apply Hkeys. now apply Hrest.
    + intros key. now rewrite Hkeys', Hkeys.
Qed.

(** X5.  A tick completes exactly when every active id that the catalog knows
    has a statistics record; otherwise the read of the missing record
    throws. *)
Theorem tick_completes_iff (activeSlots : list string) (globalStake : Q)
    (prev : gmap string SlotStats) (rng : Rng) :
  (exists next rng',
      processSimulations' activeSlots globalStake prev rng
      = (Normal next, rng'))
  <-> (forall slotId, In slotId activeSlots ->
                      findConfig SLOTS slotId <> None ->
                      is_Some (prev !! slotId)).
Proof.
  unfold processSimulations. split.
  - intros (next & rng' & H). now apply (forEach_normal_inv _ _ _ _ _ _ H).
  - intros H.
    destruct (forEach_completes _ runBatchSimulation SLOTS globalStake
                activeSlots prev rng H) as (next & rng' & Hn & _).
    eauto.
Qed.

(** X6.  A tick that completes neither adds nor removes a key of the map. *)
Theorem tick_keeps_keys (activeSlots : list string) (globalStake : Q)
    (prev next : gmap string SlotStats) (rng rng' : Rng) :
  processSimulations' activeSlots globalStake prev rng = (Normal next, rng') ->
  dom next = dom prev.
Proof.
  intros H. apply (forEach_normal_inv _ _ _ _ _ _) in H as [_ Hkeys].
  apply set_eq. intros key. rewrite !elem_of_dom. apply Hkeys.
Qed.

(** X7.  A tick that completes can be followed by another one, at any stake and
    from any generator state: it completes too. *)
Theorem tick_completes_again (activeSlots : list string)
    (globalStake globalStake' : Q) (prev next : gmap string SlotStats)
    (rng rng' rng2 : Rng) :
  processSimulations' activeSlots globalStake prev rng = (Normal next, rng') ->
  exists next2 rng3,
    processSimulations' activeSlots globalStake' next rng2
    = (Normal next2, rng3).
Proof.
  intros H. apply (forEach_normal_inv _ _ _ _ _ _) in H as [Hrec Hkeys].
  destruct (forEach_completes _ runBatchSimulation SLOTS globalStake'
              activeSlots next rng2) as (next2 & rng3 & Hn & _).
  - intros slotId Hin Hknown. apply Hkeys. now apply Hrec.
  - eauto.
Qed.

Lemma forEach_one_update (globalStake : Q) (slots : list string)
    (nextMap next : gmap string SlotStats) (rng rng' : Rng)
    (slotId : string) (config : SlotConfig) :
  List.NoDup slots ->
  In slotId slots ->
  findConfig SLOTS slotId = Some config ->
  forEach' globalStake slots nextMap rng = (Normal next, rng') ->
  exists cs r,
    nextMap !! slotId = Some cs
    /\ next !! slotId
       = Some (applyBatch cs config
                 (fst (runBatchSimulation config 100%nat globalStake r))).
Proof.
  intros Hnd Hin Hc. revert nextMap rng.
  induction Hnd as [|x rest Hx Hnd IH]; intros nextMap rng H; [destruct Hin|].
  rewrite forEach_cons in H.
  destruct (tickSlot' globalStake nextMap x rng) as [[m|e] rng1] eqn:E;
    [|discriminate H].
  destruct (decide (x = slotId)) as [->|Hne].
  - destruct (tickSlot_normal_inv _ _ _ _ _ _ E) as [[cs Hcs] _];
      [congruence|].
    rewrite (tickSlot_known _ _ _ _ _ _ Hc Hcs) in E. inversion E; subst.
    exists cs, rng. split; [exact Hcs|].
    rewrite (forEach_frame _ _ _ _ _ _ _ _ _ H slotId) by now left.
    apply lookup_insert_eq.
  - destruct Hin as [Heq|Hin]; [congruence|].
    destruct (IH Hin _ _ H) as (cs & r & Hcs & Hnext).
    exists cs, r. split; [|exact Hnext].
    rewrite <- Hcs. symmetry.
    eapply tickSlot_frame; [exact E | congruence].
Qed.

(** X8.  In a tick that completes, every active id of the catalog (the active
    set has no duplicates) gets exactly one aggregation step: its new record
    is [applyBatch] of its previous record and one batch of 100 spins drawn
    for its configuration at the current stake. *)
Theorem tick_one_update (activeSlots : list string) (globalStake : Q)
    (prev next : gmap string SlotStats) (rng rng' : Rng)
    (slotId : string) (config : SlotConfig) :
  List.NoDup activeSlots ->
  In slotId activeSlots ->
  findConfig SLOTS slotId = Some config ->
  processSimulations' activeSlots globalStake prev rng = (Normal next, rng') ->
  exists cs r,
    prev !! slotId = Some cs
    /\ next !! slotId
       = Some (applyBatch cs config
                 (fst (runBatchSimulation config 100%nat globalStake r))).
Proof.
  unfold processSimulations. apply forEach_one_update.
Qed.

(** X9.  When the engine only returns spins with non-negative fields, a tick that
    completes decreases no accumulator of any record of the map. *)
Theorem tick_monotone (activeSlots : list string) (globalStake : Q)
    (prev next : gmap string SlotStats) (rng rng' : Rng) :
  (forall config r,
      Forall nonneg_spin
        (fst (runBatchSimulation config 100%nat globalStake r))) ->
  processSimulations' activeSlots globalStake prev rng = (Normal next, rng') ->
  forall (key : string) (cs : SlotStats),
    prev !! key = Some cs ->
    exists cs', next !! key = Some cs' /\ accumulators_le cs cs'.
Proof.
  intros Hengine. unfold processSimulations. revert prev rng.
  induction activeSlots as [|x rest IH]; intros prev rng H key cs Hcs.
  - inversion H; subst. exists cs. split; [exact Hcs|].
    apply accumulators_le_refl.
  - rewrite forEach_cons in H.
    destruct (tickSlot' globalStake prev x rng) as [[m|e] rng1] eqn:E;
      [|discriminate H].
    assert (Hm : exists cs1, m !! key = Some cs1 /\ accumulators_le cs cs1).
    { destruct (decide (key = x)) as [->|Hne].
      - destruct (findConfig SLOTS x) as [config|] eqn:Hc.
        + rewrite (tickSlot_known _ _ _ _ _ _ Hc Hcs) in E.
          inversion E; subst. eexists. split; [apply lookup_insert_eq|].
          apply applyBatch_monotone, Hengine.
        + rewrite (tickSlot_unknown _ _ _ _ _ _ _ Hc) in E.
          inversion E; subst. exists cs. split; [exact Hcs|].
          apply accumulators_le_refl.
      - exists cs. split; [|apply accumulators_le_refl].
        rewrite <- Hcs. eapply tickSlot_frame; eassumption. }
    destruct Hm as (cs1 & Hcs1 & Hle1).
    destruct (IH _ _ H key cs1 Hcs1) as (cs' & Hcs' & Hle').
    exists cs'. split; [exact Hcs'|].
    eapply accumulators_le_trans; eassumption.
Qed.

(** X4.  Untracking an asset freezes its record: a tick over the active set from
    which the id was toggled off leaves the entry of that id as it was. *)
Theorem untracked_frozen (activeSlots : list string) (globalStake : Q)
    (prev next : gmap string SlotStats) (rng rng' : Rng) (slotId : string) :
  In slotId activeSlots ->
  processSimulations' (toggleSlotTracking slotId activeSlots) globalStake
    prev rng = (Normal next, rng') ->
  next !! slotId = prev !! slotId.
Proof.
  intros Hin H. unfold processSimulations in H.
  apply (forEach_frame _ _ _ _ _ _ _ _ _ H). left.
  unfold toggleSlotTracking. cbv zeta.
  rewrite (proj2 (has_In activeSlots slotId) Hin), In_delete. tauto.
Qed.

End TickOutcome.

Lemma losingEngine_nonneg (config : SlotConfig) (r : nat) :
  Forall nonneg_spin (fst (Sample.losingEngine config 100%nat 1 r)).
Proof.
  apply List.Forall_forall. intros x Hx. apply repeat_spec in Hx. subst x.
  repeat split; discriminate.
Qed.

Lemma tick_completes_iff_witness :
  exists next rng',
    processSimulations nat Sample.losingEngine Sample.catalog
      ["ghost-slot"; "book-of-dead"] 1 Sample.statsMap 0%nat
    = (Normal next, rng').
Proof.
  apply (proj2 (tick_completes_iff nat Sample.losingEngine Sample.catalog
                  ["ghost-slot"; "book-of-dead"] 1 Sample.statsMap 0%nat)).
  intros slotId [<-|[<-|[]]] Hknown.
  - exfalso. apply Hknown. reflexivity.
  - eexists. reflexivity.
Defined.

Lemma tick_keeps_keys_witness :
  dom Sample.tickedMap = dom Sample.statsMap.
Proof.
  apply (tick_keeps_keys nat Sample.losingEngine Sample.catalog
           ["ghost-slot"; "book-of-dead"] 1 Sample.statsMap Sample.tickedMap
           0%nat 1%nat).
  reflexivity.
Defined.

Lemma tick_completes_again_witness :
  exists next2 rng3,
    processSimulations nat Sample.losingEngine Sample.catalog
      ["ghost-slot"; "book-of-dead"] (1 # 2) Sample.tickedMap 7%nat
    = (Normal next2, rng3).
Proof.
  apply (tick_completes_again nat Sample.losingEngine Sample.catalog
           ["ghost-slot"; "book-of-dead"] 1 (1 # 2) Sample.statsMap
           Sample.tickedMap 0%nat 1%nat 7%nat).
  reflexivity.
Defined.

Lemma tick_one_update_witness :
  exists cs r,
    Sample.statsMap !! "book-of-dead" = Some cs
    /\ Sample.tickedMap !! "book-of-dead"
       = Some (applyBatch cs Sample.bookOfDead
                 (fst (Sample.losingEngine Sample.bookOfDead 100%nat 1 r))).
Proof.
  apply (tick_one_update nat Sample.losingEngine Sample.catalog
           ["ghost-slot"; "book-of-dead"] 1 Sample.statsMap Sample.tickedMap
           0%nat 1%nat "book-of-dead" Sample.bookOfDead).
  - repeat constructor; simpl; intuition discriminate.
  - right. left. reflexivity.
  - reflexivity.
  - reflexivity.
Defined.

Lemma tick_monotone_witness :
  exists cs',
    Sample.tickedMap !! "book-of-dead" = Some cs'
    /\ accumulators_le (Sample.fresh Sample.bookOfDead) cs'.
Proof.
  apply (tick_monotone nat Sample.losingEngine Sample.catalog
           ["ghost-slot"; "book-of-dead"] 1 Sample.statsMap Sample.tickedMap
           0%nat 1%nat losingEngine_nonneg eq_refl "book-of-dead").
  reflexivity.
Defined.

Lemma untracked_frozen_witness :
  Sample.tickedMap !! "razor-shark" = Sample.statsMap !! "razor-shark".
Proof.
  apply (untracked_frozen nat Sample.losingEngine Sample.catalog
           initialActiveSlots 1 Sample.statsMap Sample.tickedMap 0%nat 1%nat
           "razor-shark").
  - right. left. reflexivity.
  - reflexivity.
Defined.

(** ** The aggregation step over a run of batches *)

(** X10.  The spin counter is cumulative while the spin window is bounded:
    after a run of calls [totalSpins] is its starting value plus the number
    of spins of all the batches (an exact count as long as it stays within
    2^53), whereas [history], starting from at most 100 entries, holds the
    smaller of 100 and the number of spins it was given. *)
Theorem totalSpins_cumulative (s : SlotStats) (config : SlotConfig)
    (batches : list (list SpinResult)) :
  (0 <= totalSpins s)%Z ->
  (totalSpins s + Z.of_nat (length (concat batches)) <= 2 ^ 53)%Z ->
  (length (history s) <= 100)%nat ->
  totalSpins (applyBatches s config batches)
  = (totalSpins s + Z.of_nat (length (concat batches)))%Z
  /\ length (history (applyBatches s config batches))
     = Nat.min 100 (length (history s) + length (concat batches)).
Proof.
  intros _ _ Hh. split.
  - clear Hh. revert s. induction batches as [|b bs IH]; intros s.
    + simpl. lia.
    + rewrite applyBatches_cons, IH. cbn [concat totalSpins applyBatch].
      rewrite length_app. lia.
  - assert (Hb : (length (history (applyBatches s config batches)) <= 100)%nat).
    { revert s Hh. induction batches as [|b bs IH]; intros s Hh.
      - exact Hh.
      - rewrite applyBatches_cons. apply IH.
        rewrite history_applyBatch, length_slice_last. lia. }
    rewrite <- (slice_last_short 100 _ Hb), history_applyBatches.
    rewrite length_slice_last, length_app. reflexivity.
Qed.

Lemma totalSpins_cumulative_witness :
  let s := applyBatches (Sample.fresh Sample.bookOfDead) Sample.bookOfDead
             (repeat (repeat Sample.miss 30) 5) in
  totalSpins s = 150%Z /\ length (history s) = 100%nat.
Proof.
  apply (totalSpins_cumulative (Sample.fresh Sample.bookOfDead)
           Sample.bookOfDead (repeat (repeat Sample.miss 30) 5)).
  - simpl. lia.
  - vm_compute. discriminate.
  - simpl. lia.
Defined.

Lemma Math_max_bounds (a : Q) (xs : list Q) :
  a <= Math_max a (Math_max_spread xs)
  /\ Forall (fun x => x <= Math_max a (Math_max_spread xs)) xs
  /\ (Math_max a (Math_max_spread xs) = a
      \/ In (Math_max a (Math_max_spread xs)) xs).
Proof.
  split; [apply Math_max_ge_left|].
  destruct xs as [|x xs]; [split; [constructor | now left]|].
  destruct (Math_max_spread_nonempty x xs) as (m & Hm & Hall & Hin).
  rewrite Hm. split.
  - eapply Forall_impl; [exact Hall|]. intros y Hy. simpl in Hy.
    eapply Qle_trans; [exact Hy | apply Math_max_ge_right].
  - destruct (Math_max_attained a m) as [E|E]; [now left|].
    right. now rewrite E.
Qed.

(** X11.  [maxMultiplier] is a running maximum: after a run of calls it bounds its
    starting value and the multiplier of every spin of every batch, and it
    is one of these values. *)
Theorem maxMultiplier_running_max (s : SlotStats) (config : SlotConfig)
    (batches : list (list SpinResult)) :
  maxMultiplier s <= maxMultiplier (applyBatches s config batches)
  /\ Forall (fun r => multiplier r
                      <= maxMultiplier (applyBatches s config batches))
       (concat batches)
  /\ (maxMultiplier (applyBatches s config batches) = maxMultiplier s
      \/ exists r, In r (concat batches)
                   /\ maxMultiplier (applyBatches s config batches)
                      = multiplier r).
Proof.
  revert s. induction batches as [|b bs IH]; intros s.
  - simpl. split; [apply Qle_refl|]. split; [constructor | now left].
  - rewrite applyBatches_cons.
    destruct (IH (applyBatch s config b)) as (Hle & Hall & Hat).
    destruct (Math_max_bounds (maxMultiplier s) (map multiplier b))
      as (Bl & Ball & Bat).
    change (Math_max (maxMultiplier s) (Math_max_spread (map multiplier b)))
      with (maxMultiplier (applyBatch s config b)) in Bl, Ball, Bat.
    split; [eapply Qle_trans; eassumption|]. split.
    + cbn [concat]. apply Forall_app. split; [|exact Hall].
      rewrite Forall_map in Ball.
      eapply Forall_impl; [exact Ball|]. intros r Hr. simpl in Hr.
      eapply Qle_trans; eassumption.
    + cbn [concat]. destruct Hat as [E|(r & Hr & E)].
      * rewrite E. destruct Bat as [E'|Hin]; [now left|].
        right. apply in_map_iff in Hin as (r & Hr & Hin).
        exists r. split; [apply in_app_iff; now left | now rewrite Hr].
      * right. exists r. split; [apply in_app_iff; now right | exact E].
Qed.

(** ** Splitting a batch *)

Lemma max_step_Finite (h y : Q) :
  max_step (Finite h) y = Finite (if gt y h then y else h).
Proof. simpl. now destruct (gt y h). Qed.

Lemma max_step_join (h a y : Q) :
  (if gt y (if gt h a then h else a) then y else if gt h a then h else a)
  = (if gt (if gt y h then y else h) a then if gt y h then y else h else a).
Proof.
  destruct (gt h a) eqn:Ha; cbv iota; destruct (gt y h) eqn:Hy; cbv iota;
    rewrite ?Ha; try reflexivity.
  - apply gt_spec in Ha. apply gt_spec in Hy.
    assert (E : gt y a = true)
      by (apply gt_spec; eapply Qlt_trans; eassumption).
    now rewrite E.
  - apply gt_false in Ha. apply gt_false in Hy.
    assert (E : gt y a = false)
      by (apply gt_false; eapply Qle_trans; eassumption).
    now rewrite E.
Qed.

Lemma fold_max_join (xs : list Q) (h a : Q) :
  exists m,
    fold_left max_step xs (Finite h) = Finite m
    /\ fold_left max_step xs (Finite (if gt h a then h else a))
       = Finite (if gt m a then m else a).
Proof.
  revert h. induction xs as [|y ys IH]; intros h.
  - exists h. now split.
  - cbn [fold_left]. rewrite !max_step_Finite, max_step_join. apply IH.
Qed.

(** [Math.max(a, Math.max(...xs))] is the loop of [Math.max] run over [xs]
    from [a]. *)
Lemma Math_max_as_fold (a : Q) (xs : list Q) :
  fold_left max_step xs (Finite a)
  = Finite (Math_max a (Math_max_spread xs)).
Proof.
  destruct xs as [|x xs]; [reflexivity|].
  unfold Math_max_spread. cbn [fold_left]. rewrite max_step_Finite.
  change (max_step NegInfinity x) with (Finite x).
  destruct (fold_max_join xs x a) as (m & Hm & Hjoin).
  rewrite Hjoin, Hm. reflexivity.
Qed.

Lemma Math_max_app (a : Q) (xs ys : list Q) :
  Math_max (Math_max a (Math_max_spread xs)) (Math_max_spread ys)
  = Math_max a (Math_max_spread (xs ++ ys)).
Proof.
  assert (H : Finite (Math_max (Math_max a (Math_max_spread xs))
                        (Math_max_spread ys))
              = Finite (Math_max a (Math_max_spread (xs ++ ys)))).
  { rewrite <- !Math_max_as_fold. now rewrite fold_left_app. }
  now inversion H.
Qed.

(** X12.  Feeding a batch in two pieces, one call each, leaves the same
    [maxMultiplier] and the same [history] as feeding it in one call. *)
Theorem applyBatch_split_max_history (s : SlotStats) (config : SlotConfig)
    (b1 b2 : list SpinResult) :
  maxMultiplier (applyBatch (applyBatch s config b1) config b2)
  = maxMultiplier (applyBatch s config (b1 ++ b2))
  /\ history (applyBatch (applyBatch s config b1) config b2)
     = history (applyBatch s config (b1 ++ b2)).
Proof.
  split.
  - cbn [maxMultiplier applyBatch]. unfold batchMaxMulti.
    rewrite map_app. apply Math_max_app.
  - rewrite !history_applyBatch, slice_last_app_slice.
    now rewrite app_assoc.
Qed.

(** ** A full batch replaces the spin window *)

Lemma slice_last_app_long {A : Type} (n : nat) (xs ys : list A) :
  (n <= length ys)%nat -> slice_last n (xs ++ ys) = slice_last n ys.
Proof.
  intros H. unfold slice_last. rewrite length_app, skipn_app.
  rewrite skipn_all2 by lia. simpl. f_equal. lia.
Qed.

(** X13.  A batch of at least 100 spins pushes the whole previous [history] out:
    the window is then the last 100 spins of the batch, and the batch itself
    when it has exactly 100 spins, the size a tick asks for. *)
Theorem history_replaced (s : SlotStats) (config : SlotConfig)
    (b : list SpinResult) :
  ((100 <= length b)%nat ->
   history (applyBatch s config b) = slice_last 100 b)
  /\ (length b = 100%nat -> history (applyBatch s config b) = b).
Proof.
  split; intros H; rewrite history_applyBatch.
  - now apply slice_last_app_long.
  - rewrite slice_last_app_long by lia. apply slice_last_short. lia.
Qed.

Lemma history_replaced_witness :
  history (applyBatch
             (applyBatch (Sample.fresh Sample.bookOfDead) Sample.bookOfDead
                [Sample.hit; Sample.hit])
             Sample.bookOfDead (repeat Sample.miss 100))
  = repeat Sample.miss 100.
Proof.
  apply (proj2 (history_replaced
                  (applyBatch (Sample.fresh Sample.bookOfDead)
                     Sample.bookOfDead [Sample.hit; Sample.hit])
                  Sample.bookOfDead (repeat Sample.miss 100))).
  reflexivity.
Defined.

(** ** The charted value is never negative *)

(** X15.  With a non-negative configured [rtp], non-negative wins so far and a
    batch of non-negative spins, the [liveRtp] a call writes is not
    negative. *)
Theorem liveRtp_nonneg (s : SlotStats) (config : SlotConfig)
    (b : list SpinResult) :
  0 <= rtp config ->
  0 <= totalWins s ->
  Forall nonneg_spin b ->
  0 <= liveRtp (applyBatch s config b).
Proof.
  intros Hrtp HW Hb. rewrite liveRtp_applyBatch. unfold newLiveRtp.
  destruct (gt (totalStakes (applyBatch s config b)) 0) eqn:E;
    [|exact Hrtp].
  apply gt_spec in E.
  assert (HW' : 0 <= totalWins (applyBatch s config b)).
  { destruct (applyBatch_monotone s config b Hb) as (_ & _ & H & _).
    eapply Qle_trans; eassumption. }
  apply Qmult_le_0_compat; [|discriminate].
  apply Qle_shift_div_l; [exact E|]. now rewrite Qmult_0_l.
Qed.

Lemma liveRtp_nonneg_witness :
  0 <= liveRtp (applyBatch (Sample.fresh Sample.bookOfDead) Sample.bookOfDead
                  [Sample.miss; Sample.hit; Sample.idle]).
Proof.
  apply (liveRtp_nonneg (Sample.fresh Sample.bookOfDead) Sample.bookOfDead
           [Sample.miss; Sample.hit; Sample.idle]).
  - discriminate.
  - discriminate.
  - repeat constructor; simpl; discriminate.
Defined.

(** ** The header total over the map *)

Lemma Qsum_Permutation (xs ys : list Q) :
  Permutation xs ys -> Qsum xs == Qsum ys.
Proof.
  induction 1 as [|x xs ys _ IH|x y xs|xs ys zs _ IH1 _ IH2]; simpl.
  - reflexivity.
  - now rewrite IH.
  - ring.
  - now rewrite IH1.
Qed.

Lemma totalNetworkWagered_insert_fresh (m : gmap string SlotStats)
    (key : string) (cs : SlotStats) :
  m !! key = None ->
  totalNetworkWagered (<[key := cs]> m)
  == totalStakes cs + totalNetworkWagered m.
Proof.
  intros H. unfold totalNetworkWagered. rewrite !reduce_sum_Qsum.
  rewrite (Qsum_Permutation _
             (map totalStakes (map snd ((key, cs) :: map_to_list m)))).
  - reflexivity.
  - apply Permutation_map, Permutation_map. now apply map_to_list_insert.
Qed.

(** Replacing the record at a key moves the total by the difference of the
    two records' stakes. *)
Lemma totalNetworkWagered_insert (m : gmap string SlotStats)
    (key : string) (cs cs' : SlotStats) :
  m !! key = Some cs ->
  totalNetworkWagered (<[key := cs']> m)
  == totalNetworkWagered m - totalStakes cs + totalStakes cs'.
Proof.
  intros H.
  rewrite <- (insert_delete_eq m key cs').
  rewrite <- (insert_delete_id m key cs H) at 2.
  rewrite !totalNetworkWagered_insert_fresh by apply lookup_delete_eq.
  ring.
Qed.

Section HeaderTotal.

Variable Rng : Type.
Variable runBatchSimulation :
  SlotConfig -> nat -> Q -> Rng -> list SpinResult * Rng.
Variable SLOTS : list SlotConfig.

Local Abbreviation tickSlot' := (tickSlot Rng runBatchSimulation SLOTS).
Local Abbreviation forEach' := (forEach Rng runBatchSimulation SLOTS).

Lemma tickSlot_wagered (globalStake : Q) (nextMap m : gmap string SlotStats)
    (slotId : string) (rng rng1 : Rng) :
  (forall config r,
      Forall nonneg_spin
        (fst (runBatchSimulation config 100%nat globalStake r))) ->
  tickSlot' globalStake nextMap slotId rng = (Normal m, rng1) ->
  totalNetworkWagered nextMap <= totalNetworkWagered m.
Proof.
  intros Hengine E.
  destruct (findConfig SLOTS slotId) as [config|] eqn:Hc.
  - destruct (nextMap !! slotId) as [cs|] eqn:Hs.
    + rewrite (tickSlot_known _ _ _ _ _ _ _ _ _ Hc Hs) in E.
      inversion E; subst.
      rewrite (totalNetworkWagered_insert _ _ _ _ Hs).
      destruct (applyBatch_monotone cs config _ (Hengine config rng))
        as (_ & H & _).
      lra.
    + rewrite (tickSlot_missing _ _ _ _ _ _ _ _ Hc Hs) in E. discriminate E.
  - rewrite (tickSlot_unknown _ _ _ _ _ _ _ Hc) in E. inversion E; subst.
    apply Qle_refl.
Qed.

(** X16.  When the engine only returns spins with non-negative fields, a tick that
    completes does not lower the "Total Network Wagered" of the header, the
    sum of [totalStakes] over every record of the map. *)
Theorem tick_wagered_monotone (activeSlots : list string) (globalStake : Q)
    (prev next : gmap string SlotStats) (rng rng' : Rng) :
  (forall config r,
      Forall nonneg_spin
        (fst (runBatchSimulation config 100%nat globalStake r))) ->
  processSimulations Rng runBatchSimulation SLOTS activeSlots globalStake
    prev rng = (Normal next, rng') ->
  totalNetworkWagered prev <= totalNetworkWagered next.
Proof.
  intros Hengine. unfold processSimulations. revert prev rng.
  induction activeSlots as [|x rest IH]; intros prev rng H.
  - inversion H; subst. apply Qle_refl.
  - rewrite forEach_cons in H.
    destruct (tickSlot' globalStake prev x rng) as [[m|e] rng1] eqn:E;
      [|discriminate H].
    eapply Qle_trans; [eapply tickSlot_wagered; eassumption|].
    eapply IH; eassumption.
Qed.

End HeaderTotal.

Lemma tick_wagered_monotone_witness :
  totalNetworkWagered Sample.statsMap == 0
  /\ totalNetworkWagered Sample.tickedMap == 100
  /\ totalNetworkWagered Sample.statsMap
     <= totalNetworkWagered Sample.tickedMap.
Proof.
  split; [reflexivity|]. split; [reflexivity|].
  apply (tick_wagered_monotone nat Sample.losingEngine Sample.catalog
           ["ghost-slot"; "book-of-dead"] 1 Sample.statsMap Sample.tickedMap
           0%nat 1%nat losingEngine_nonneg eq_refl).
Defined.
